(** * ts-lib-pgconnector-nodejs: the Connector of [lib/index.js]

    A shallow embedding of [lib/index.js] and [lib/errors.js]: the
    validation helpers, the private [_fill*] methods that build the
    [databases] and [repositories] maps, and the public methods [add],
    [load], [connect], [getPool] and [on].

    What the module does not define is kept at the edge of the model:
    - [pg]: [new this._pg.Pool(dbConf)] allocates a new object; a pool is
      identified by its position in the list of all pools opened so far.
      What [pool.connect(cb)] does in one call is an argument of [connect].
    - [kibbutz]: what [append] and [load] do are variables of the
      section [Connector].
    - [events]: the listeners registered by [on] are kept in the connector;
      [emit] follows Node's [EventEmitter].
    - the listeners and callbacks the caller gives: whether a call of
      one returns or throws is the variable [behaves] of the section. *)

From stdpp Require Import gmap strings list fin_maps.
From Stdlib Require Import ZArith ssreflect.

Set Warnings "-register-all,-rewrite-rw".
Local Open Scope string_scope.

(** ** JavaScript values *)

(** Configuration data.  An object is the list of its own enumerable
    properties in the order [Object.keys] lists them, each key once; for
    a list in which a key occurs twice, [get] reads the first occurrence
    and [Object_keys] lists the key once.  Functions are known by an
    identity only.  The messages below are those of the source without
    their inner quotation marks. *)
Inductive jsval : Type :=
| JUndefined
| JNull
| JBool (b : bool)
| JNum (n : Z)
| JStr (s : string)
| JArr (items : list jsval)
| JDate (time : Z)
| JFun (id : nat)
| JObj (props : list (string * jsval)).

(** [lib/errors.js], and the two built-in errors [lib/index.js] throws.
    [UnhandledError] is the error Node's [emit] raises for an ['error']
    event without listener whose payload is not an [Error]. *)
Inductive fault : Type :=
| TypeError (message : string)
| Error (message : string)
| ConfigurationError (message : string) (data : jsval)
| MissingRepositoryError (message : string) (data : string)
| UnhandledError.

(** What is thrown, passed to callbacks and listeners, or settles a
    promise: data, an error object, or the connector itself ([self]). *)
Inductive value : Type :=
| Data (v : jsval)
| Err (e : fault)
| Self.

Inductive completion (A : Type) : Type :=
| Return (a : A)
| Throw (e : value).
Arguments Return {A} a.
Arguments Throw {A} e.

Inductive promise : Type :=
| Pending
| Resolved (v : value)
| Rejected (reason : value).

(** Calls made to functions received from the outside: the listeners
    given to [on] and the callbacks given to [connect] and [load]. *)
Inductive effect : Type :=
| Notified (eventName : string) (listener : nat) (payload : value)
| Called (callback : nat) (args : list value).

(** What such a function does when it is called, given the calls made
    before: it returns ([None]) or it throws ([Some e]).  The functions
    are taken not to call the connector themselves. *)
Definition behaviour : Type := list effect → effect → option value.

(** ** Primitives of the language and of [elv] *)

Definition typeof (v : jsval) : string :=
  match v with
  | JUndefined => "undefined"
  | JNull => "object"
  | JBool _ => "boolean"
  | JNum _ => "number"
  | JStr _ => "string"
  | JArr _ => "object"
  | JDate _ => "object"
  | JFun _ => "function"
  | JObj _ => "object"
  end.

Definition Array_isArray (v : jsval) : bool :=
  match v with JArr _ => true | _ => false end.

Definition instanceof_Date (v : jsval) : bool :=
  match v with JDate _ => true | _ => false end.

(** [elv(v)]: [v] is neither [undefined] nor [null]. *)
Definition elv (v : jsval) : bool :=
  match v with JUndefined | JNull => false | _ => true end.

Definition elv_value (v : value) : bool :=
  match v with Data d => elv d | _ => true end.

Fixpoint assoc (key : string) (props : list (string * jsval)) : jsval :=
  match props with
  | [] => JUndefined
  | (k, v) :: rest => if bool_decide (key = k) then v else assoc key rest
  end.

(** [o[key]] and [o.key].  The methods below read properties of plain
    objects only, and of the merged configuration, which [kibbutz] makes
    an object. *)
Definition get (o : jsval) (key : string) : jsval :=
  match o with
  | JObj props => assoc key props
  | _ => JUndefined
  end.

(** [Object.keys(o)]; reached for plain objects only, see
    [validateConf_plain]. *)
Definition Object_keys (o : jsval) : list string :=
  match o with
  | JObj props => remove_dups props.*1
  | _ => []
  end.

(** ** Messages *)

Module msg.
Definition argCallback := "Argument callback must be a function".
Definition argEventNameStr := "Argument eventName must be a non-empty string".
Definition argUnknownEventName := "Argument eventName references an unknown event: ".
Definition argListenerFn := "Argument listener must be a function".
Definition argProvidersArray := "Argument providers must be an array".
Definition argProvidersLen := "Argument providers cannot be empty".
Definition argRepoStr := "Argument repository must be a non-empty string".
Definition dbConfHostStr := Some "Databases require a host key that is a non-empty string".
Definition dbConfPojo := Some "Loaded configuration databases sub keys must be POJOs".
Definition databasesPojo := Some "Loaded configuration's databases key must be a POJO".
Definition noDatabases := Some "Loaded configuration does not contain any databases".
Definition reposPojo := Some "Loaded configuration's repositories key must be a POJO".
Definition repoConfMapping := Some "Configured repository is mapped to missing database name".
Definition repoConfStr := Some "Loaded configuration repositories must non-empty strings".
(** The table of [lib/index.js] has no [noRepositories] entry: reading
    it gives [undefined]. *)
Definition noRepositories : option string := None.
Definition configuration := "Invalid configuration".
Definition missingRepo := "No repository found with the name ".
End msg.

(** [new ConfigurationError(message, data)]: the message falls back to
    the default one when [undefined] ([elv.coalesce]). *)
Definition new_ConfigurationError (message : option string) (data : jsval) : fault :=
  ConfigurationError (default msg.configuration message) data.

Definition new_MissingRepositoryError (repository : string) : fault :=
  MissingRepositoryError (msg.missingRepo +:+ repository) repository.

(** ** Validation helpers *)

Definition isPojo (obj : jsval) : bool :=
  bool_decide (typeof obj = "object")
  && negb (Array_isArray obj)
  && negb (instanceof_Date obj).

Definition isNonEmptyString (v : jsval) : bool :=
  match v with
  | JStr s => bool_decide (0 < String.length s)
  | _ => false
  end.

(** [None] when the callback is acceptable, else the error thrown. *)
Definition assertCallback (callback : jsval) : option fault :=
  if elv callback && negb (bool_decide (typeof callback = "function"))
  then Some (TypeError msg.argCallback)
  else None.

Definition key_value (key : string) (v : jsval) : jsval :=
  JObj [("key", JStr key); ("value", v)].

Definition validateDatabaseConf (key : string) (dbConf : jsval) : option fault :=
  if negb (elv dbConf) || negb (isPojo dbConf) then
    Some (new_ConfigurationError msg.dbConfPojo (key_value key dbConf))
  else if negb (isNonEmptyString (get dbConf "host")) then
    Some (new_ConfigurationError msg.dbConfHostStr (key_value key dbConf))
  else None.

Definition validateConf (conf : jsval) : option fault :=
  if negb (elv (get conf "databases")) then
    Some (new_ConfigurationError msg.noDatabases conf)
  else if negb (isPojo (get conf "databases")) then
    Some (new_ConfigurationError msg.databasesPojo conf)
  else if negb (elv (get conf "repositories")) then
    Some (new_ConfigurationError msg.noRepositories conf)
  else if negb (isPojo (get conf "repositories")) then
    Some (new_ConfigurationError msg.reposPojo conf)
  else None.

(** ** The connector *)

Record DatabaseEntry : Type := {
  db_name : string;
  db_pool : nat;
}.

Record RepositoryEntry : Type := {
  repo_name : string;
  repo_pool : nat;
  repo_databaseName : string;
}.

(** [databases], [repositories] and [_emitter] are the fields of the
    class.  [pools] lists the configuration of every pool opened so far:
    the pool opened by the n-th [new this._pg.Pool(dbConf)] is pool [n],
    so that two entries share a pool object exactly when they hold the
    same number.  [effects] logs the calls made to listeners and
    callbacks, oldest first. *)
Record Connector : Type := {
  databases : gmap string DatabaseEntry;
  repositories : gmap string RepositoryEntry;
  _emitter : list (string * nat);
  pools : list jsval;
  effects : list effect;
}.

(** [new Connector(pgLib)] with a library that has a [Pool] class. *)
Definition new_Connector : Connector :=
  {| databases := ∅; repositories := ∅; _emitter := []; pools := []; effects := [] |}.

(** [const pool = new this._pg.Pool(dbConf); this.databases.set(key, {name: key, pool})] *)
Definition open_database (key : string) (dbConf : jsval) (c : Connector) : Connector :=
  {| databases := <[key := {| db_name := key; db_pool := length (pools c) |}]> (databases c);
     repositories := repositories c;
     _emitter := _emitter c;
     pools := pools c ++ [dbConf];
     effects := effects c |}.

Definition set_repository (key : string) (e : RepositoryEntry) (c : Connector) : Connector :=
  {| databases := databases c;
     repositories := <[key := e]> (repositories c);
     _emitter := _emitter c;
     pools := pools c;
     effects := effects c |}.

Definition add_listener (eventName : string) (listener : nat) (c : Connector) : Connector :=
  {| databases := databases c;
     repositories := repositories c;
     _emitter := _emitter c ++ [(eventName, listener)];
     pools := pools c;
     effects := effects c |}.

Definition log (es : list effect) (c : Connector) : Connector :=
  {| databases := databases c;
     repositories := repositories c;
     _emitter := _emitter c;
     pools := pools c;
     effects := effects c ++ es |}.

(** The loop of [_fillDatabasesMap]; an entry written before a later one
    fails stays written. *)
Fixpoint fillDatabases_loop (dbs : jsval) (keys : list string) (c : Connector)
  : Connector * option fault :=
  match keys with
  | [] => (c, None)
  | key :: rest =>
      let dbConf := get dbs key in
      match validateDatabaseConf key dbConf with
      | Some databaseErr => (c, Some databaseErr)
      | None => fillDatabases_loop dbs rest (open_database key dbConf c)
      end
  end.

Definition _fillDatabasesMap (c : Connector) (dbs : jsval) : Connector * option fault :=
  let keys := Object_keys dbs in
  if bool_decide (length keys = 0) then
    (c, Some (new_ConfigurationError msg.noDatabases JUndefined))
  else fillDatabases_loop dbs keys c.

(** [this.databases.has(k)] and [this.databases.get(k)]: the keys of both
    maps are strings, any other value is the key of no entry. *)
Definition Map_has {A} (m : gmap string A) (k : jsval) : bool :=
  match k with
  | JStr s => bool_decide (is_Some (m !! s))
  | _ => false
  end.

Definition Map_get {A} (m : gmap string A) (k : jsval) : option A :=
  match k with
  | JStr s => m !! s
  | _ => None
  end.

Definition _validateRepoConf (c : Connector) (key : string) (repoConf : jsval) : option fault :=
  if negb (isNonEmptyString repoConf) then
    Some (new_ConfigurationError msg.repoConfStr (JStr key))
  else if negb (Map_has (databases c) repoConf) then
    Some (new_ConfigurationError msg.repoConfMapping (key_value key repoConf))
  else None.

(** [this.databases.get(repoConf).pool]; [None] stands for the
    [TypeError] of reading [pool] of [undefined], which cannot happen
    after [_validateRepoConf] (see [_validateRepoConf_pool]). *)
Definition database_pool (c : Connector) (repoConf : jsval) : option nat :=
  db_pool <$> Map_get (databases c) repoConf.

(** The string held by a value that passed [isNonEmptyString]. *)
Definition as_string (v : jsval) : string :=
  match v with JStr s => s | _ => "" end.

Fixpoint fillRepos_loop (repos : jsval) (keys : list string) (c : Connector)
  : Connector * option fault :=
  match keys with
  | [] => (c, None)
  | key :: rest =>
      let repoConf := get repos key in
      match _validateRepoConf c key repoConf with
      | Some repoErr => (c, Some repoErr)
      | None =>
          match database_pool c repoConf with
          | Some pool =>
              fillRepos_loop repos rest
                (set_repository key
                   {| repo_name := key; repo_pool := pool;
                      repo_databaseName := as_string repoConf |} c)
          | None => (c, Some (TypeError "Cannot read property pool of undefined"))
          end
      end
  end.

Definition _fillReposMap (c : Connector) (repos : jsval) : Connector * option fault :=
  let keys := Object_keys repos in
  if bool_decide (length keys = 0) then
    (c, Some (new_ConfigurationError msg.noRepositories JUndefined))
  else fillRepos_loop repos keys c.

Definition _fill (c : Connector) (conf : jsval) : Connector * option fault :=
  match validateConf conf with
  | Some validateErr => (c, Some validateErr)
  | None =>
      match _fillDatabasesMap c (get conf "databases") with
      | (c1, Some databasesErr) => (c1, Some databasesErr)
      | (c1, None) => _fillReposMap c1 (get conf "repositories")
      end
  end.

Section Connector.

(** The functions the caller gives to the connector. *)
Variable behaves : behaviour.

(** ** Notifications *)

Definition listeners (c : Connector) (eventName : string) : list nat :=
  (filter (λ l, l.1 = eventName) (_emitter c)).*2.

(** What Node throws when ['error'] is emitted and nobody listens: the
    payload itself when it is an [Error], else an error wrapping it. *)
Definition unhandled (payload : value) : value :=
  match payload with
  | Err e => Err e
  | _ => Err UnhandledError
  end.

(** The loop of Node's [emit]: the listeners are called in turn; the
    exception of a listener ends the loop and leaves [emit]. *)
Fixpoint notify (eventName : string) (payload : value) (ls : list nat) (c : Connector)
  : Connector * option value :=
  match ls with
  | [] => (c, None)
  | l :: rest =>
      let call := Notified eventName l payload in
      match behaves (effects c) call with
      | Some thrown => (log [call] c, Some thrown)
      | None => notify eventName payload rest (log [call] c)
      end
  end.

(** [this._emitter.emit(eventName, payload)]: the listeners of the
    event are called in registration order; [Some e] when [emit]
    throws [e]. *)
Definition emit (c : Connector) (eventName : string) (payload : value)
  : Connector * option value :=
  if bool_decide (eventName = "error") && bool_decide (listeners c eventName = []) then
    (c, Some (unhandled payload))
  else notify eventName payload (listeners c eventName) c.

(** [if (elv(cbfn)) cbfn(...args)]; [Some e] when the call throws [e]:
    the callback throws it, or [cbfn] is a value that is no function,
    which [assertCallback] has refused before. *)
Definition call_if_elv (cbfn : jsval) (args : list value) (c : Connector)
  : Connector * option value :=
  match cbfn with
  | JFun f => (log [Called f args] c, behaves (effects c) (Called f args))
  | _ =>
      if elv cbfn then (c, Some (Err (TypeError "cbfn is not a function")))
      else (c, None)
  end.

(** A statement that settles the promise after a call: it is not
    reached when the call throws. *)
Definition then_settle (called : Connector * option value) (p : promise)
  : Connector * promise * option value :=
  match called with
  | (c, Some thrown) => (c, Pending, Some thrown)
  | (c, None) => (c, p, None)
  end.

(** An exception that leaves the executor of a promise rejects it,
    unless it is settled. *)
Definition reject (p : promise) (thrown : value) : promise :=
  match p with
  | Pending => Rejected thrown
  | _ => p
  end.

(** ** Lookups *)

Definition _assertRepo (c : Connector) (repository : jsval) : option fault :=
  if negb (isNonEmptyString repository) then Some (TypeError msg.argRepoStr)
  else if negb (Map_has (repositories c) repository) then
    Some (new_MissingRepositoryError (as_string repository))
  else None.

Definition getPool (c : Connector) (repository : jsval) : completion nat :=
  match _assertRepo c repository with
  | Some e => Throw (Err e)
  | None =>
      match Map_get (repositories c) repository with
      | Some repo => Return (repo_pool repo)
      | None => Throw (Err (TypeError "Cannot read property pool of undefined"))
      end
  end.

(** What [repo.pool.connect(callback)] does in one call: it throws before
    it has called back, or it calls back once with [(err, client, done)],
    or it never calls back.  [during] tells whether an exception of the
    callback leaves [pool.connect], which is so when the pool calls
    back before it returns and catches nothing; otherwise the exception
    stays with the pool or the event loop. *)
Inductive acquisition : Type :=
| AcquireThrows (e : value)
| AcquireCallsBack (during : bool) (err client done : value)
| AcquireNever.

(** The callback [connect] gives to [pool.connect]:
    [(err, client, done) => { ... }], with the state it leaves the
    promise in and the exception it throws. *)
Definition connected (c : Connector) (cbfn : jsval) (err client done : value)
  : Connector * promise * option value :=
  if elv_value err then
    then_settle (call_if_elv cbfn [err] c) (Rejected err)
  else
    then_settle (call_if_elv cbfn [Data JNull; client; done] c) (Resolved client).

(** The catch block of [connect]: [self._emitter.emit('error', e)], in
    the executor of the promise. *)
Definition caught (c : Connector) (p : promise) (e : value) : Connector * promise :=
  match emit c "error" e with
  | (c1, None) => (c1, p)
  | (c1, Some thrown) => (c1, reject p thrown)
  end.

(** [connect(repository, callback)], with the promise in the state it has
    once the pool has answered. *)
Definition connect (c : Connector) (repository callback : jsval) (acquire : acquisition)
  : Connector * completion promise :=
  match _assertRepo c repository with
  | Some e => (c, Throw (Err e))
  | None =>
  match assertCallback callback with
  | Some e => (c, Throw (Err e))
  | None =>
      let cbfn := callback in
      match acquire with
      | AcquireCallsBack during err client done =>
          match connected c cbfn err client done with
          | (c1, p, None) => (c1, Return p)
          | (c1, p, Some thrown) =>
              if during then let '(c2, p2) := caught c1 p thrown in (c2, Return p2)
              else (c1, Return p)
          end
      | AcquireThrows e =>
          let '(c1, p) := caught c Pending e in (c1, Return p)
      | AcquireNever => (c, Return Pending)
      end
  end
  end.

(** [on(eventName, listener)] *)
Definition on (c : Connector) (eventName listener : jsval) : Connector * completion unit :=
  match eventName with
  | JStr name =>
      if bool_decide (String.length name = 0) then
        (c, Throw (Err (TypeError msg.argEventNameStr)))
      else
        match listener with
        | JFun l =>
            if bool_decide (name ≠ "config") && bool_decide (name ≠ "done")
               && bool_decide (name ≠ "error")
            then (c, Throw (Err (Error (msg.argUnknownEventName +:+ name))))
            else (add_listener name l c, Return ())
        | _ => (c, Throw (Err (TypeError msg.argListenerFn)))
        end
  | _ => (c, Throw (Err (TypeError msg.argEventNameStr)))
  end.

(** ** Configuration: [add] and [load] *)

(** What [configurator.load(providers, cb)] does, step by step: it
    announces a fragment by a ['config'] event and goes on, knowing
    what the handler of the event threw; or it calls [cb(err, conf)],
    [conf] being the merged object; or it throws; or it never calls
    back.  [during] tells whether an exception of [cb] leaves
    [configurator.load]. *)
Inductive kibbutz_script : Type :=
| Announces (fragment : jsval) (next : option value → kibbutz_script)
| CallsBack (during : bool) (err : value) (conf : list (string * jsval))
| LoadThrows (e : value)
| NeverCallsBack.

(** [new Kibbutz(options)] throws, or gives a configurator. *)
Inductive kibbutz_load : Type :=
| KibbutzThrows (e : value)
| KibbutzLoads (script : kibbutz_script).

(** What a script does while the handler of ['config'] returns: the
    fragments it announces, and how it ends. *)
Fixpoint undisturbed (script : kibbutz_script) : list jsval * kibbutz_script :=
  match script with
  | Announces fragment next =>
      let '(fragments, last) := undisturbed (next None) in (fragment :: fragments, last)
  | _ => ([], script)
  end.

(** The loop of [add]: arrays among the arguments are flattened one
    level. *)
Definition flatten (args : list jsval) : list jsval :=
  foldl (λ vals val,
           match val with JArr items => vals ++ items | _ => vals ++ [val] end)%list
        [] args.

(** The callback [load] gives to [configurator.load]:
    [(err, conf) => { ... }], with the state it leaves the promise in
    and the exception it throws. *)
Definition load_done (c : Connector) (cbfn : jsval) (err : value) (conf : jsval)
  : Connector * promise * option value :=
  if elv_value err then
    then_settle (call_if_elv cbfn [err] c) (Rejected err)
  else
    match _fill c conf with
    | (c1, Some fillErr) =>
        then_settle (call_if_elv cbfn [Err fillErr] c1) (Rejected (Err fillErr))
    | (c1, None) =>
        match emit c1 "done" (Data conf) with
        | (c2, Some thrown) => (c2, Pending, Some thrown)
        | (c2, None) => then_settle (call_if_elv cbfn [Data JNull; Self] c2) (Resolved Self)
        end
    end.

(** The executor of the promise of [load]:
    [configurator.load(providerFns, (err, conf) => { ... })], the
    handler of ['config'] being
    [(fragment) => { self._emitter.emit('config', fragment); }]. *)
Fixpoint configurator_load (script : kibbutz_script) (cbfn : jsval) (c : Connector)
  : Connector * promise :=
  match script with
  | Announces fragment next =>
      let '(c1, thrown) := emit c "config" (Data fragment) in
      configurator_load (next thrown) cbfn c1
  | CallsBack during err conf =>
      match load_done c cbfn err (JObj conf) with
      | (c1, p, None) => (c1, p)
      | (c1, p, Some thrown) => (c1, if during then reject p thrown else p)
      end
  | LoadThrows e => (c, Rejected e)
  | NeverCallsBack => (c, Pending)
  end.

(** The properties of [configurator.value] after [append(vals)] on a
    new [Kibbutz]. *)
Variable Kibbutz_append : list jsval → list (string * jsval).

(** [new Kibbutz(options)] and what its [load(providers, cb)] does *)
Variable Kibbutz_load : list jsval → jsval → kibbutz_load.

Definition add (c : Connector) (args : list jsval) : Connector * completion unit :=
  if bool_decide (length args = 0) then (c, Return ())
  else
    let vals := flatten args in
    match _fill c (JObj (Kibbutz_append vals)) with
    | (c1, Some fillErr) => (c1, Throw (Err fillErr))
    | (c1, None) => (c1, Return ())
    end.

(** [load(providers, value, callback)] called with the arguments
    [args], with the promise in the state it has once [kibbutz] has
    answered. *)
Definition load (c : Connector) (args : list jsval) : Connector * completion promise :=
  let providers := nth 0 args JUndefined in
  let value := nth 1 args JUndefined in
  let callback := nth 2 args JUndefined in
  match providers with
  | JArr ps =>
      if bool_decide (length ps = 0) then (c, Throw (Err (TypeError msg.argProvidersLen)))
      else
        let '(val, cbfn) :=
          if bool_decide (length args = 2) && bool_decide (typeof value = "function")
          then (JUndefined, value) else (value, callback) in
        match assertCallback cbfn with
        | Some e => (c, Throw (Err e))
        | None =>
            let options := if elv val then JObj [("value", val)] else JUndefined in
            match Kibbutz_load ps options with
            | KibbutzThrows e => (c, Throw e)
            | KibbutzLoads script =>
                let '(c1, p) := configurator_load script cbfn c in
                (c1, Return p)
            end
        end
  | _ => (c, Throw (Err (TypeError msg.argProvidersArray)))
  end.

(** The public operations, and the connectors a program can reach from
    [new Connector()]. *)
Inductive operation : Type :=
| Add (args : list jsval)
| Load (args : list jsval)
| Connect (repository callback : jsval) (acquire : acquisition)
| GetPool (repository : jsval)
| On (eventName listener : jsval).

Definition run (c : Connector) (o : operation) : Connector :=
  match o with
  | Add args => (add c args).1
  | Load args => (load c args).1
  | Connect repository callback acquire => (connect c repository callback acquire).1
  | GetPool _ => c
  | On eventName listener => (on c eventName listener).1
  end.

Inductive reachable : Connector → Prop :=
| reachable_new : reachable new_Connector
| reachable_run c o : reachable c → reachable (run c o).

End Connector.

(** ** Examples *)

Module Examples.
Definition primary : jsval := JObj [("host", JStr "127.0.0.1")].
Definition conf : jsval :=
  JObj [("databases", JObj [("primary", primary)]);
        ("repositories", JObj [("test", JStr "primary")])].

(** A stand-in for [kibbutz] that yields the first fragment. *)
Definition first_fragment (vals : list jsval) : list (string * jsval) :=
  match vals with
  | JObj props :: _ => props
  | _ => []
  end.

(** A [kibbutz] that announces the fragments, whatever the handler
    does, and calls back later. *)
Definition announces_all (fragments : list jsval) (last : kibbutz_script) : kibbutz_script :=
  foldr (λ fragment next, Announces fragment (λ _, next)) last fragments.

(** A stand-in for [kibbutz] whose providers are the fragments. *)
Definition no_load (providers : list jsval) (options : jsval) : kibbutz_load :=
  KibbutzLoads
    (announces_all providers (CallsBack false (Data JNull) (first_fragment providers))).

(** Listeners and callbacks that return. *)
Definition quiet : behaviour := λ _ _, None.

(** Function [9] throws, the others return. *)
Definition function_9_throws : behaviour :=
  λ _ call,
    match call with
    | Notified _ 9 _ | Called 9 _ => Some (Err (Error "thrown by 9"))
    | _ => None
    end.

Definition configured : Connector := (add first_fragment new_Connector [conf]).1.

(** A repository mapped to a database that does not exist. *)
Definition blorg : jsval :=
  JObj [("databases", JObj [("primary", primary)]);
        ("repositories", JObj [("test", JStr "blorg")])].

(** An empty host, and no [repositories] key. *)
Definition no_repositories : jsval :=
  JObj [("databases", JObj [("primary", JObj [("host", JStr "")])])].

(** A second snapshot, whose repository refers to a database of the
    first one. *)
Definition secondary : jsval :=
  JObj [("databases", JObj [("secondary", JObj [("host", JStr "127.0.0.2")])]);
        ("repositories", JObj [("orders", JStr "primary")])].

(** A repository whose name is the empty string. *)
Definition unnamed : jsval :=
  JObj [("databases", JObj [("primary", primary)]);
        ("repositories", JObj [("", JStr "primary")])].

Definition terrible : value := Err (Error "Everything is terrible").

(** The database of [configured] again, with a new repository. *)
Definition again : jsval :=
  JObj [("databases", JObj [("primary", primary)]);
        ("repositories", JObj [("orders", JStr "primary")])].

(** [configured] with a listener for the ['error'] event. *)
Definition listening : Connector := (on configured (JStr "error") (JFun 7)).1.
End Examples.

(** ** Properties stated below *)

Definition is_ConfigurationError (e : fault) : Prop :=
  match e with ConfigurationError _ _ => True | _ => False end.

(** The fault for a repository [key] mapped to a name [d] that names no
    database. *)
Definition dangling (key : string) (d : jsval) : fault :=
  new_ConfigurationError msg.repoConfMapping (key_value key d).

(** The Registry invariant: every repository entry names a database that
    has an entry, and every stored pool has been opened. *)
Definition registry_invariant (c : Connector) : Prop :=
  (∀ r e, repositories c !! r = Some e →
     repo_name e = r ∧ repo_pool e < length (pools c)
     ∧ is_Some (databases c !! repo_databaseName e))
  ∧ (∀ d de, databases c !! d = Some de →
       db_name de = d ∧ db_pool de < length (pools c)).

(** *** The rules of validation, one by one

    The checks of the specification as separate functions: [rule1] and
    [rule3] look at the two top-level keys, [rule2] and [rule4] at the
    entries, in key order, after the check that there is an entry at
    all.  [rule4] is given the database names a repository may refer
    to. *)
Definition rule1 (conf : jsval) : option fault :=
  if negb (elv (get conf "databases")) then
    Some (new_ConfigurationError msg.noDatabases conf)
  else if negb (isPojo (get conf "databases")) then
    Some (new_ConfigurationError msg.databasesPojo conf)
  else None.

Definition rule3 (conf : jsval) : option fault :=
  if negb (elv (get conf "repositories")) then
    Some (new_ConfigurationError msg.noRepositories conf)
  else if negb (isPojo (get conf "repositories")) then
    Some (new_ConfigurationError msg.reposPojo conf)
  else None.

Definition rule2 (dbs : jsval) : option fault :=
  if bool_decide (length (Object_keys dbs) = 0) then
    Some (new_ConfigurationError msg.noDatabases JUndefined)
  else head (omap (λ key, validateDatabaseConf key (get dbs key)) (Object_keys dbs)).

Definition rule4_entry (known : string → bool) (key : string) (repoConf : jsval)
  : option fault :=
  if negb (isNonEmptyString repoConf) then
    Some (new_ConfigurationError msg.repoConfStr (JStr key))
  else if negb (known (as_string repoConf)) then Some (dangling key repoConf)
  else None.

Definition rule4 (known : string → bool) (repos : jsval) : option fault :=
  if bool_decide (length (Object_keys repos) = 0) then
    Some (new_ConfigurationError msg.noRepositories JUndefined)
  else head (omap (λ key, rule4_entry known key (get repos key)) (Object_keys repos)).

Definition or_else (first : option fault) (next : option fault) : option fault :=
  match first with Some e => Some e | None => next end.

(** The order in which the specification lists the rules, and the order
    in which [_fill] applies them. *)
Definition rules_1_2_3_4 (known : string → bool) (conf : jsval) : option fault :=
  or_else (rule1 conf)
    (or_else (rule2 (get conf "databases"))
       (or_else (rule3 conf) (rule4 known (get conf "repositories")))).

Definition rules_1_3_2_4 (known : string → bool) (conf : jsval) : option fault :=
  or_else (rule1 conf)
    (or_else (rule3 conf)
       (or_else (rule2 (get conf "databases")) (rule4 known (get conf "repositories")))).

(** The names a repository of [conf] may refer to: the databases of the
    same snapshot, and those together with the databases the connector
    already has. *)
Definition in_snapshot (conf : jsval) (d : string) : bool :=
  bool_decide (d ∈ Object_keys (get conf "databases")).

Definition in_snapshot_or_registry (c : Connector) (conf : jsval) (d : string) : bool :=
  bool_decide (is_Some (databases c !! d)) || in_snapshot conf d.

(** A snapshot is valid when no rule fails, the repositories referring
    to the databases of the same snapshot. *)
Definition valid_snapshot (conf : jsval) : Prop :=
  rules_1_3_2_4 (in_snapshot conf) conf = None.


(** A configuration a pool may be opened with: a plain object whose
    [host] is a non-empty string. *)
Definition host_configured (dbConf : jsval) : Prop :=
  ∃ props host, dbConf = JObj props ∧ assoc "host" props = JStr host ∧ host ≠ "".

(** No pool is the pool of two databases. *)
Definition pools_distinct (c : Connector) : Prop :=
  ∀ d1 d2 de1 de2,
    databases c !! d1 = Some de1 → databases c !! d2 = Some de2 →
    db_pool de1 = db_pool de2 → d1 = d2.

(** ** Examples, run *)

Example add_conf :
  (add Examples.first_fragment new_Connector [Examples.conf]).2 = Return ()
  ∧ getPool Examples.configured (JStr "test") = Return 0
  ∧ pools Examples.configured = [Examples.primary].
Proof. by vm_compute. Qed.

Example getPool_missing :
  getPool Examples.configured (JStr "nopers")
  = Throw (Err (MissingRepositoryError "No repository found with the name nopers" "nopers")).
Proof. by vm_compute. Qed.

(** ** The validation helpers *)

Lemma isPojo_elv_plain v : elv v = true → isPojo v = true → ∃ props, v = JObj props.
Proof. destruct v; try discriminate; eauto. Qed.

(** Once [validateConf] accepts a configuration, both keys hold plain
    objects. *)
Lemma validateConf_plain conf :
  validateConf conf = None →
  (∃ dbs, get conf "databases" = JObj dbs) ∧ (∃ repos, get conf "repositories" = JObj repos).
Proof.
  unfold validateConf. intros H.
  destruct (elv (get conf "databases")) eqn:E1; [|done].
  destruct (isPojo (get conf "databases")) eqn:E2; [|done].
  destruct (elv (get conf "repositories")) eqn:E3; [|done].
  destruct (isPojo (get conf "repositories")) eqn:E4; [|done].
  split; by apply isPojo_elv_plain.
Qed.

Lemma Object_keys_NoDup o : NoDup (Object_keys o).
Proof. destruct o; simpl; try apply NoDup_nil_2. apply NoDup_remove_dups. Qed.

Lemma validateConf_fault conf e : validateConf conf = Some e → is_ConfigurationError e.
Proof.
  unfold validateConf. repeat case_match; intros; simplify_eq; done.
Qed.

Lemma validateDatabaseConf_fault key dbConf e :
  validateDatabaseConf key dbConf = Some e →
  e = new_ConfigurationError msg.dbConfPojo (key_value key dbConf)
  ∨ e = new_ConfigurationError msg.dbConfHostStr (key_value key dbConf).
Proof.
  unfold validateDatabaseConf.
  repeat case_match; intros; simplify_eq; eauto.
Qed.

Lemma _validateRepoConf_fault c key repoConf e :
  _validateRepoConf c key repoConf = Some e →
  e = new_ConfigurationError msg.repoConfStr (JStr key)
  ∨ e = new_ConfigurationError msg.repoConfMapping (key_value key repoConf)
    ∧ Map_has (databases c) repoConf = false.
Proof.
  unfold _validateRepoConf.
  destruct (isNonEmptyString repoConf); simpl; [|naive_solver].
  destruct (Map_has (databases c) repoConf); simpl; naive_solver.
Qed.

Lemma _validateRepoConf_ok c key repoConf :
  _validateRepoConf c key repoConf = None →
  ∃ d de, repoConf = JStr d ∧ 0 < String.length d ∧ databases c !! d = Some de.
Proof.
  unfold _validateRepoConf.
  destruct (isNonEmptyString repoConf) eqn:E1; simpl; [|done].
  destruct (Map_has (databases c) repoConf) eqn:E2; simpl; [|done].
  intros _. destruct repoConf; try done. simpl in *.
  apply bool_decide_eq_true in E1, E2. destruct E2 as [de Hde]. eauto.
Qed.

(** [this.databases.get(repoConf)] is defined after the validation. *)
Lemma _validateRepoConf_pool c key repoConf :
  _validateRepoConf c key repoConf = None → is_Some (database_pool c repoConf).
Proof.
  intros H. apply _validateRepoConf_ok in H as (d & de & -> & _ & Hde).
  unfold database_pool. simpl. rewrite Hde. eauto.
Qed.

(** ** The loop of [_fillDatabasesMap] *)

Lemma fillDatabases_loop_frame dbs keys c c' r :
  fillDatabases_loop dbs keys c = (c', r) →
  repositories c' = repositories c ∧ _emitter c' = _emitter c ∧ effects c' = effects c
  ∧ (∃ opened, pools c' = (pools c ++ opened)%list)
  ∧ (∀ k, k ∉ keys → databases c' !! k = databases c !! k)
  ∧ (∀ k, is_Some (databases c !! k) → is_Some (databases c' !! k)).
Proof.
  revert c. induction keys as [|key rest IH]; intros c H; simpl in H.
  - simplify_eq. split_and!; eauto. exists []. by rewrite app_nil_r.
  - destruct (validateDatabaseConf key (get dbs key)).
    + simplify_eq. split_and!; eauto. exists []. by rewrite app_nil_r.
    + apply IH in H as (Hr & He & Hf & [opened Hp] & Hk & Hd). simpl in *.
      split_and!; eauto.
      * exists (get dbs key :: opened). by rewrite Hp -app_assoc.
      * intros k [Hne Hk']%not_elem_of_cons. rewrite Hk // lookup_insert_ne //. congruence.
      * intros k Hs. apply Hd. destruct (decide (key = k)) as [->|].
        -- rewrite lookup_insert_eq. eauto.
        -- by rewrite lookup_insert_ne.
Qed.

(** A successful run has opened one pool per key, in key order. *)
Lemma fillDatabases_loop_ok dbs keys c c' :
  NoDup keys →
  fillDatabases_loop dbs keys c = (c', None) →
  pools c' = (pools c ++ map (get dbs) keys)%list
  ∧ ∀ i k, keys !! i = Some k →
      validateDatabaseConf k (get dbs k) = None
      ∧ databases c' !! k = Some {| db_name := k; db_pool := length (pools c) + i |}.
Proof.
  revert c. induction keys as [|key rest IH]; intros c Hnd H; simpl in H.
  - simplify_eq. split; [by rewrite app_nil_r|]. intros i k Hi. done.
  - destruct (validateDatabaseConf key (get dbs key)) eqn:Hv; [done|].
    apply NoDup_cons in Hnd as [Hnotin Hnd].
    pose proof (fillDatabases_loop_frame _ _ _ _ _ H) as (_ & _ & _ & _ & Hk & _).
    apply IH in H as [Hp Hall]; [|done]. simpl in *.
    split; [by rewrite Hp -app_assoc|].
    intros [|i] k Hi; simpl in Hi.
    + simplify_eq. split; [done|].
      rewrite Hk // lookup_insert_eq. do 2 f_equal. lia.
    + destruct (Hall i k Hi) as [Hv' Hd]. split; [done|].
      rewrite Hd length_app /=. do 2 f_equal. lia.
Qed.

(** A failing run stops at the first key that fails the validation: the
    keys before it have been written, the others not. *)
Lemma fillDatabases_loop_fail dbs keys c c' e :
  NoDup keys →
  fillDatabases_loop dbs keys c = (c', Some e) →
  ∃ before key rest,
    keys = (before ++ key :: rest)%list
    ∧ validateDatabaseConf key (get dbs key) = Some e
    ∧ fillDatabases_loop dbs before c = (c', None)
    ∧ ∀ k, k ∉ before → databases c' !! k = databases c !! k.
Proof.
  revert c. induction keys as [|key rest IH]; intros c Hnd H; simpl in H; [done|].
  destruct (validateDatabaseConf key (get dbs key)) eqn:Hv.
  - simplify_eq. exists [], key, rest. done.
  - apply NoDup_cons in Hnd as [Hnotin Hnd].
    apply IH in H as (before & k' & rest' & -> & Hv' & Hrun & Hk); [|done].
    exists (key :: before), k', rest'. split_and!; [done|done|by rewrite /= Hv|].
    intros k [Hne Hk']%not_elem_of_cons.
    rewrite Hk //= lookup_insert_ne //. congruence.
Qed.

(** The loop is total, and succeeds when every entry is valid. *)
Lemma fillDatabases_loop_total dbs keys c :
  (∀ k, k ∈ keys → validateDatabaseConf k (get dbs k) = None) →
  ∃ c', fillDatabases_loop dbs keys c = (c', None).
Proof.
  revert c. induction keys as [|key rest IH]; intros c Hall; simpl; [eauto|].
  rewrite Hall; [left|]. apply IH. intros k Hk. apply Hall. by right.
Qed.

(** ** The loop of [_fillReposMap] *)

Lemma _validateRepoConf_databases c1 c2 key repoConf :
  databases c1 = databases c2 →
  _validateRepoConf c1 key repoConf = _validateRepoConf c2 key repoConf.
Proof. unfold _validateRepoConf. by intros ->. Qed.

Lemma fillRepos_loop_frame repos keys c c' r :
  fillRepos_loop repos keys c = (c', r) →
  databases c' = databases c ∧ pools c' = pools c
  ∧ _emitter c' = _emitter c ∧ effects c' = effects c
  ∧ (∀ k, k ∉ keys → repositories c' !! k = repositories c !! k)
  ∧ (∀ k, is_Some (repositories c !! k) → is_Some (repositories c' !! k)).
Proof.
  revert c. induction keys as [|key rest IH]; intros c H; simpl in H.
  - by simplify_eq.
  - destruct (_validateRepoConf c key (get repos key)); [by simplify_eq|].
    destruct (database_pool c (get repos key)); [|by simplify_eq].
    apply IH in H as (Hd & Hp & He & Hf & Hk & Hs). simpl in *.
    split_and!; try done.
    + intros k [Hne Hk']%not_elem_of_cons. rewrite Hk // lookup_insert_ne //. congruence.
    + intros k Hk'. apply Hs. destruct (decide (key = k)) as [->|].
      * rewrite lookup_insert_eq. eauto.
      * by rewrite lookup_insert_ne.
Qed.

(** After a successful run every key is mapped to the pool its database
    had in the registry. *)
Lemma fillRepos_loop_ok repos keys c c' :
  NoDup keys →
  fillRepos_loop repos keys c = (c', None) →
  ∀ k, k ∈ keys →
    ∃ d de, get repos k = JStr d ∧ 0 < String.length d
      ∧ databases c !! d = Some de
      ∧ repositories c' !! k
        = Some {| repo_name := k; repo_pool := db_pool de; repo_databaseName := d |}.
Proof.
  revert c. induction keys as [|key rest IH]; intros c Hnd H k Hin; simpl in H.
  - by apply elem_of_nil in Hin.
  - destruct (_validateRepoConf c key (get repos key)) eqn:Hv; [done|].
    apply _validateRepoConf_ok in Hv as (d & de & Hget & Hlen & Hde).
    unfold database_pool in H. rewrite Hget /= Hde /= in H.
    apply NoDup_cons in Hnd as [Hnotin Hnd].
    apply elem_of_cons in Hin as [->|Hin].
    + apply fillRepos_loop_frame in H as (_ & _ & _ & _ & Hk & _).
      exists d, de. split_and!; try done.
      rewrite Hk //= lookup_insert_eq //.
    + by apply (IH _ Hnd H).
Qed.

Lemma fillRepos_loop_fail repos keys c c' e :
  NoDup keys →
  fillRepos_loop repos keys c = (c', Some e) →
  ∃ before key rest,
    keys = (before ++ key :: rest)%list
    ∧ _validateRepoConf c key (get repos key) = Some e
    ∧ fillRepos_loop repos before c = (c', None)
    ∧ ∀ k, k ∉ before → repositories c' !! k = repositories c !! k.
Proof.
  revert c. induction keys as [|key rest IH]; intros c Hnd H; simpl in H; [done|].
  destruct (_validateRepoConf c key (get repos key)) eqn:Hv.
  - simplify_eq. by exists [], key, rest.
  - destruct (_validateRepoConf_pool _ _ _ Hv) as [pool Hpool].
    rewrite Hpool in H.
    apply NoDup_cons in Hnd as [Hnotin Hnd].
    apply IH in H as (before & k' & rest' & -> & Hv' & Hrun & Hk); [|done].
    exists (key :: before), k', rest'. split_and!; try done.
    + by rewrite /= Hv Hpool.
    + intros k [Hne Hk']%not_elem_of_cons.
      rewrite Hk //= lookup_insert_ne //. congruence.
Qed.

Lemma fillRepos_loop_total repos keys c :
  (∀ k, k ∈ keys → _validateRepoConf c k (get repos k) = None) →
  ∃ c', fillRepos_loop repos keys c = (c', None).
Proof.
  revert c. induction keys as [|key rest IH]; intros c Hall; simpl; [eauto|].
  rewrite Hall; [left|].
  destruct (_validateRepoConf_pool c key (get repos key)) as [pool ->]; [apply Hall; left|].
  apply IH. intros k Hk.
  rewrite -(Hall k); [by right|]. by apply _validateRepoConf_databases.
Qed.

(** ** [_fill] *)

Lemma _fill_fault c conf c' e : _fill c conf = (c', Some e) → is_ConfigurationError e.
Proof.
  unfold _fill. destruct (validateConf conf) eqn:Hv.
  - intros; simplify_eq. by apply (validateConf_fault conf).
  - unfold _fillDatabasesMap, _fillReposMap.
    case_bool_decide; [by intros; simplify_eq|].
    destruct (fillDatabases_loop _ _ c) as [c1 [e1|]] eqn:Hd.
    + intros; simplify_eq.
      apply fillDatabases_loop_fail in Hd as (? & key & ? & _ & Hf & _);
        [|apply Object_keys_NoDup].
      by apply validateDatabaseConf_fault in Hf as [->| ->].
    + case_bool_decide; [by intros; simplify_eq|].
      intros Hr.
      apply fillRepos_loop_fail in Hr as (? & key & ? & _ & Hf & _);
        [|apply Object_keys_NoDup].
      by apply _validateRepoConf_fault in Hf as [->|[-> _]].
Qed.

(** Whatever the outcome, [_fill] touches the entries of the keys of the
    snapshot only, removes nothing, closes no pool and calls nobody. *)
Lemma _fill_frame c conf c' r :
  _fill c conf = (c', r) →
  _emitter c' = _emitter c ∧ effects c' = effects c
  ∧ (∃ opened, pools c' = (pools c ++ opened)%list)
  ∧ (∀ k, k ∉ Object_keys (get conf "databases") → databases c' !! k = databases c !! k)
  ∧ (∀ k, k ∉ Object_keys (get conf "repositories") →
       repositories c' !! k = repositories c !! k)
  ∧ (∀ k, is_Some (databases c !! k) → is_Some (databases c' !! k))
  ∧ (∀ k, is_Some (repositories c !! k) → is_Some (repositories c' !! k)).
Proof.
  assert (Hsame : ∀ c0 : Connector,
    _emitter c0 = _emitter c0 ∧ effects c0 = effects c0
    ∧ (∃ opened, pools c0 = (pools c0 ++ opened)%list)
    ∧ (∀ k, k ∉ Object_keys (get conf "databases") → databases c0 !! k = databases c0 !! k)
    ∧ (∀ k, k ∉ Object_keys (get conf "repositories") →
         repositories c0 !! k = repositories c0 !! k)
    ∧ (∀ k, is_Some (databases c0 !! k) → is_Some (databases c0 !! k))
    ∧ (∀ k, is_Some (repositories c0 !! k) → is_Some (repositories c0 !! k))).
  { intros c0. split_and!; try done. exists []. by rewrite app_nil_r. }
  unfold _fill. destruct (validateConf conf); [intros; simplify_eq; apply Hsame|].
  unfold _fillDatabasesMap, _fillReposMap.
  case_bool_decide; [intros; simplify_eq; apply Hsame|].
  destruct (fillDatabases_loop _ _ c) as [c1 r1] eqn:Hd.
  apply fillDatabases_loop_frame in Hd as (Hr1 & He1 & Hf1 & Hp1 & Hk1 & Hs1).
  assert (∀ k, k ∉ Object_keys (get conf "repositories") →
            repositories c1 !! k = repositories c !! k) as Hk1' by (by rewrite Hr1).
  assert (∀ k, is_Some (repositories c !! k) → is_Some (repositories c1 !! k)) as Hs1'
    by (by rewrite Hr1).
  destruct r1; [by intros; simplify_eq|].
  case_bool_decide; [by intros; simplify_eq|].
  intros Hr. apply fillRepos_loop_frame in Hr as (Hd2 & Hp2 & He2 & Hf2 & Hk2 & Hs2).
  rewrite Hd2 Hp2 He2 Hf2. split_and!; try done.
  - intros k Hk. by rewrite Hk2 // Hr1.
  - intros k Hk. apply Hs2. by rewrite Hr1.
Qed.

(** What a successful application leaves behind. *)
Lemma _fill_ok c conf c' :
  _fill c conf = (c', None) →
  let dbs := get conf "databases" in
  let repos := get conf "repositories" in
  pools c' = (pools c ++ map (get dbs) (Object_keys dbs))%list
  ∧ (∀ i k, Object_keys dbs !! i = Some k →
       validateDatabaseConf k (get dbs k) = None
       ∧ databases c' !! k = Some {| db_name := k; db_pool := length (pools c) + i |})
  ∧ (∀ k, k ∈ Object_keys repos →
       ∃ d de, get repos k = JStr d ∧ 0 < String.length d
         ∧ databases c' !! d = Some de
         ∧ repositories c' !! k
           = Some {| repo_name := k; repo_pool := db_pool de; repo_databaseName := d |}).
Proof.
  unfold _fill. destruct (validateConf conf); [done|].
  unfold _fillDatabasesMap, _fillReposMap.
  case_bool_decide; [done|].
  destruct (fillDatabases_loop _ _ c) as [c1 [e1|]] eqn:Hd; [done|].
  case_bool_decide; [done|].
  intros Hr. simpl.
  apply fillDatabases_loop_ok in Hd as [Hp Hall]; [|apply Object_keys_NoDup].
  pose proof (fillRepos_loop_frame _ _ _ _ _ Hr) as (Hd2 & Hp2 & _).
  rewrite Hd2 Hp2. split_and!; try done.
  intros k Hk.
  by apply (fillRepos_loop_ok _ _ _ _ (Object_keys_NoDup _) Hr).
Qed.

(** ** [_fill] and the rules of validation *)

Lemma validateConf_rules conf : validateConf conf = or_else (rule1 conf) (rule3 conf).
Proof.
  unfold validateConf, rule1, rule3, or_else.
  destruct (elv (get conf "databases")); simpl; [|done].
  by destruct (isPojo (get conf "databases")).
Qed.

Lemma fillDatabases_loop_result dbs keys c :
  (fillDatabases_loop dbs keys c).2
  = head (omap (λ key, validateDatabaseConf key (get dbs key)) keys).
Proof.
  revert c. induction keys as [|key rest IH]; intros c; simpl; [done|].
  destruct (validateDatabaseConf key (get dbs key)); simpl; [done|apply IH].
Qed.

Lemma _fillDatabasesMap_result c dbs : (_fillDatabasesMap c dbs).2 = rule2 dbs.
Proof.
  unfold _fillDatabasesMap, rule2. case_bool_decide; [done|].
  apply fillDatabases_loop_result.
Qed.

Lemma _validateRepoConf_rule4 c known key repoConf :
  (∀ d, known d = bool_decide (is_Some (databases c !! d))) →
  _validateRepoConf c key repoConf = rule4_entry known key repoConf.
Proof.
  intros Hknown. unfold _validateRepoConf, rule4_entry.
  destruct repoConf; try done. simpl. by rewrite Hknown.
Qed.

Lemma fillRepos_loop_result repos keys c known :
  (∀ d, known d = bool_decide (is_Some (databases c !! d))) →
  (fillRepos_loop repos keys c).2
  = head (omap (λ key, rule4_entry known key (get repos key)) keys).
Proof.
  revert c. induction keys as [|key rest IH]; intros c Hknown; simpl; [done|].
  rewrite -(_validateRepoConf_rule4 c) //.
  destruct (_validateRepoConf c key (get repos key)) eqn:Hv; simpl; [done|].
  destruct (_validateRepoConf_pool _ _ _ Hv) as [pool ->].
  by apply IH.
Qed.

(** After a successful [_fillDatabasesMap] the connector has the
    databases it had and those of the snapshot. *)
Lemma fillDatabases_loop_known dbs keys c c1 d :
  NoDup keys →
  fillDatabases_loop dbs keys c = (c1, None) →
  bool_decide (is_Some (databases c1 !! d))
  = bool_decide (is_Some (databases c !! d)) || bool_decide (d ∈ keys).
Proof.
  intros Hnd Hrun.
  pose proof (fillDatabases_loop_frame _ _ _ _ _ Hrun) as (_ & _ & _ & _ & Hk & Hs).
  apply fillDatabases_loop_ok in Hrun as [_ Hall]; [|done].
  destruct (decide (d ∈ keys)) as [Hin|Hnotin].
  - rewrite (bool_decide_eq_true_2 (d ∈ keys)) //.
    apply list_elem_of_lookup in Hin as [i Hi].
    destruct (Hall i d Hi) as [_ ->].
    rewrite orb_true_r. by apply bool_decide_eq_true_2.
  - rewrite Hk // (bool_decide_eq_false_2 (d ∈ keys)) // orb_false_r //.
Qed.

(** [_fill] reports the first fault in the order rule 1, rule 3, rule 2,
    rule 4, rule 4 accepting the databases the connector has next to
    those of the snapshot. *)
Lemma _fill_rules c conf :
  (_fill c conf).2 = rules_1_3_2_4 (in_snapshot_or_registry c conf) conf.
Proof.
  unfold _fill, rules_1_3_2_4.
  pose proof (validateConf_rules conf) as Hv.
  destruct (validateConf conf) as [e|].
  - simpl. destruct (rule1 conf); simpl in *; [done|].
    by destruct (rule3 conf).
  - destruct (rule1 conf); [done|]. destruct (rule3 conf); [done|]. simpl.
    pose proof (_fillDatabasesMap_result c (get conf "databases")) as Hd.
    destruct (_fillDatabasesMap c (get conf "databases")) as [c1 [e1|]] eqn:Hrun;
      simpl in Hd; rewrite -Hd; [done|]. simpl.
    unfold _fillDatabasesMap in Hrun. case_bool_decide; [done|].
    unfold _fillReposMap, rule4. case_bool_decide; [done|].
    apply fillRepos_loop_result. intros d.
    rewrite (fillDatabases_loop_known _ _ _ _ d (Object_keys_NoDup _) Hrun) //.
Qed.

(** ** How [add] and [load] report what [_fill] returns *)

Section Reports.
Variable Kibbutz_append : list jsval → list (string * jsval).

Lemma add_fill c args :
  args ≠ [] →
  add Kibbutz_append c args
  = let r := _fill c (JObj (Kibbutz_append (flatten args))) in
    (r.1, match r.2 with Some fillErr => Throw (Err fillErr) | None => Return () end).
Proof.
  intros Hargs. unfold add. case_bool_decide as Hlen.
  - by destruct args.
  - by destruct (_fill c _) as [c1 [e|]].
Qed.


Lemma add_returns c args c' :
  args ≠ [] →
  add Kibbutz_append c args = (c', Return ()) →
  _fill c (JObj (Kibbutz_append (flatten args))) = (c', None).
Proof.
  intros Hargs. rewrite add_fill //.
  destruct (_fill c _) as [c1 [e|]]; simpl; [done|]. by intros [= ->].
Qed.
End Reports.

Section Calls.
Variable behaves : behaviour.


Lemma call_if_elv_registry cbfn args c :
  databases (call_if_elv behaves cbfn args c).1 = databases c
  ∧ repositories (call_if_elv behaves cbfn args c).1 = repositories c
  ∧ pools (call_if_elv behaves cbfn args c).1 = pools c
  ∧ _emitter (call_if_elv behaves cbfn args c).1 = _emitter c.
Proof. by destruct cbfn. Qed.

Lemma then_settle_connector called p : (then_settle called p).1.1 = called.1.
Proof. by destruct called as [c [thrown|]]. Qed.

Lemma notify_registry eventName payload ls c :
  databases (notify behaves eventName payload ls c).1 = databases c
  ∧ repositories (notify behaves eventName payload ls c).1 = repositories c
  ∧ pools (notify behaves eventName payload ls c).1 = pools c
  ∧ _emitter (notify behaves eventName payload ls c).1 = _emitter c.
Proof.
  revert c. induction ls as [|l rest IH]; intros c; simpl; [done|].
  destruct (behaves (effects c) (Notified eventName l payload)); [done|].
  apply (IH (log [Notified eventName l payload] c)).
Qed.

Lemma emit_registry c eventName payload :
  databases (emit behaves c eventName payload).1 = databases c
  ∧ repositories (emit behaves c eventName payload).1 = repositories c
  ∧ pools (emit behaves c eventName payload).1 = pools c
  ∧ _emitter (emit behaves c eventName payload).1 = _emitter c.
Proof. unfold emit. case_match; [done|]. apply notify_registry. Qed.
End Calls.

(** ** C3: the order of the rules *)

Lemma rule3_not_rule2 conf e : rule3 conf = Some e → rule2 (get conf "databases") ≠ Some e.
Proof.
  unfold rule3, rule2. intros H3 H2.
  assert (∃ m, e = ConfigurationError m conf
               ∧ (m = "Invalid configuration"
                  ∨ m = "Loaded configuration's repositories key must be a POJO"))
    as (m & -> & Hm).
  { repeat case_match; simplify_eq; eauto. }
  case_bool_decide.
  - injection H2 as <- <-. by destruct Hm.
  - apply head_Some_elem_of, list_elem_of_omap in H2 as (key & _ & Hv).
    unfold validateDatabaseConf, new_ConfigurationError in Hv.
    repeat case_match; simplify_eq; by destruct Hm.
Qed.

(** C3, as the code has it: [_fill] applies the rules in the order 1, 3,
    2, 4 and reports the first failure: both top-level keys are checked
    before any entry.  So when the databases key holds a plain mapping
    and the repositories key is missing or holds no plain mapping, the
    fault reported is the one of rule 3, whatever the database entries
    are, the connector is left as it was, and that fault is not the fault
    of rule 2. *)
Theorem C3_top_level_keys_first c conf :
  (_fill c conf).2 = rules_1_3_2_4 (in_snapshot_or_registry c conf) conf
  ∧ (rule1 conf = None → rule3 conf ≠ None →
     _fill c conf = (c, rule3 conf)
     ∧ rule2 (get conf "databases") ≠ rule3 conf).
Proof.
  split; [apply _fill_rules|].
  intros H1 H3. destruct (rule3 conf) as [e3|] eqn:He3; [|done]. split.
  - unfold _fill. by rewrite validateConf_rules H1 He3.
  - by apply rule3_not_rule2.
Qed.

Lemma C3_top_level_keys_first_witness :
  rule1 Examples.no_repositories = None
  ∧ rule3 Examples.no_repositories ≠ None
  ∧ _fill new_Connector Examples.no_repositories
    = (new_Connector, rule3 Examples.no_repositories).
Proof.
  split; [reflexivity|]. split; [by vm_compute|].
  apply (C3_top_level_keys_first new_Connector Examples.no_repositories);
    [reflexivity|by vm_compute].
Defined.

(** C3 as stated fails: for a snapshot with an empty host and no
    repositories key, the order 1, 2, 3, 4 reports the fault of the
    database entry, and [_fill] the fault of the missing key. *)
Lemma C3_counterexample :
  rules_1_2_3_4 (in_snapshot Examples.no_repositories) Examples.no_repositories
  = Some (ConfigurationError "Databases require a host key that is a non-empty string"
            (key_value "primary" (JObj [("host", JStr "")])))
  ∧ (_fill new_Connector Examples.no_repositories).2
    = Some (ConfigurationError "Invalid configuration" Examples.no_repositories)
  ∧ (_fill new_Connector Examples.no_repositories).2
    ≠ rules_1_2_3_4 (in_snapshot Examples.no_repositories) Examples.no_repositories.
Proof. split_and!; [reflexivity|reflexivity|]. by vm_compute. Qed.

(** ** C1: a rejected snapshot *)

Lemma _validateRepoConf_accepts c key d de :
  0 < String.length d → databases c !! d = Some de →
  _validateRepoConf c key (JStr d) = None.
Proof.
  intros Hlen Hd. unfold _validateRepoConf. simpl.
  rewrite bool_decide_eq_true_2 //= bool_decide_eq_true_2 //.
Qed.

(** Where a failing [_fill] stops: at the top-level checks, in the
    databases after the keys [before], or in the repositories after the
    keys [before], all databases being written. *)
Lemma _fill_fail c conf c' e :
  _fill c conf = (c', Some e) →
  let dbs := get conf "databases" in
  let repos := get conf "repositories" in
  (validateConf conf = Some e ∧ c' = c)
  ∨ (validateConf conf = None
     ∧ ∃ before, before ⊆ Object_keys dbs
         ∧ fillDatabases_loop dbs before c = (c', None)
         ∧ ∀ k, k ∉ before → databases c' !! k = databases c !! k)
  ∨ (validateConf conf = None
     ∧ ∃ c1 before, fillDatabases_loop dbs (Object_keys dbs) c = (c1, None)
         ∧ before ⊆ Object_keys repos
         ∧ fillRepos_loop repos before c1 = (c', None)
         ∧ ∀ k, k ∉ before → repositories c' !! k = repositories c1 !! k).
Proof.
  unfold _fill. destruct (validateConf conf) eqn:Hv; [intros; simplify_eq; by left|].
  unfold _fillDatabasesMap, _fillReposMap. intros Hfill. simpl. right.
  case_bool_decide.
  { simplify_eq. left. split; [done|]. exists []. split_and!; try done.
    apply list_subseteq_nil. }
  destruct (fillDatabases_loop _ _ c) as [c1 [e1|]] eqn:Hd.
  - simplify_eq. left. split; [done|].
    apply fillDatabases_loop_fail in Hd as (before & key & rest & Hkeys & _ & Hrun & Hk);
      [|apply Object_keys_NoDup].
    exists before. split_and!; try done.
    rewrite Hkeys. intros k Hin. apply elem_of_app. by left.
  - right. split; [done|]. exists c1. case_bool_decide.
    { simplify_eq. exists []. split_and!; try done. apply list_subseteq_nil. }
    apply fillRepos_loop_fail in Hfill
      as (before & key & rest & Hkeys & _ & Hrun & Hk); [|apply Object_keys_NoDup].
    exists before. split_and!; try done.
    rewrite Hkeys. intros k Hin. apply elem_of_app. by left.
Qed.

Lemma fillDatabases_loop_valid dbs keys c c' :
  fillDatabases_loop dbs keys c = (c', None) →
  ∀ k, k ∈ keys → validateDatabaseConf k (get dbs k) = None.
Proof.
  revert c. induction keys as [|key rest IH]; intros c H k Hin; simpl in H.
  - by apply elem_of_nil in Hin.
  - destruct (validateDatabaseConf key (get dbs key)) eqn:Hv; [done|].
    apply elem_of_cons in Hin as [->|Hin]; [done|]. by apply (IH _ H).
Qed.

Lemma fillRepos_loop_valid repos keys c c' :
  fillRepos_loop repos keys c = (c', None) →
  ∀ k, k ∈ keys → _validateRepoConf c k (get repos k) = None.
Proof.
  revert c. induction keys as [|key rest IH]; intros c H k Hin; simpl in H.
  - by apply elem_of_nil in Hin.
  - destruct (_validateRepoConf c key (get repos key)) eqn:Hv; [done|].
    destruct (database_pool c (get repos key)); [|done].
    apply elem_of_cons in Hin as [->|Hin]; [done|].
    rewrite -(IH _ H k Hin). by apply _validateRepoConf_databases.
Qed.

Section C1.
Variable behaves : behaviour.
Variable Kibbutz_append : list jsval → list (string * jsval).

End C1.



(** ** C9: snapshots without entries *)


Section C9.
Variable behaves : behaviour.
Variable Kibbutz_append : list jsval → list (string * jsval).

End C9.



(** ** C4: the database a repository refers to *)

(** C4, as the code has it: [_validateRepoConf] looks the name up in the
    connector's [databases], which hold the databases of the snapshot,
    all applied by then, and those of earlier calls.  A repository [r]
    mapped to a name that is neither a key of the snapshot's databases
    nor the name of an entry the connector has is rejected: the
    application fails with a configuration fault and the entry of [r] is
    the one it was. *)
Theorem C4_reference_must_resolve c conf r d :
  let dbs := get conf "databases" in
  let repos := get conf "repositories" in
  r ∈ Object_keys repos →
  get repos r = JStr d →
  d ∉ Object_keys dbs →
  databases c !! d = None →
  ∃ c' e, _fill c conf = (c', Some e)
    ∧ is_ConfigurationError e
    ∧ repositories c' !! r = repositories c !! r.
Proof.
  intros dbs repos Hr Hget Hd Hnone.
  destruct (_fill c conf) as [c' [e|]] eqn:Hfill.
  - exists c', e. split_and!; [done|by apply (_fill_fault c conf c')|].
    apply _fill_fail in Hfill
      as [[_ ->]|[(_ & before & _ & Hrun & _)
                 |(_ & c1 & before & Hdbs & _ & Hrun & Hrest)]]; [done| |].
    + by apply fillDatabases_loop_frame in Hrun as (-> & _).
    + pose proof (fillDatabases_loop_frame _ _ _ _ _ Hdbs) as (Hrepos & _ & _ & _ & Hk & _).
      rewrite -Hrepos. apply Hrest. intros Hin.
      pose proof (fillRepos_loop_valid _ _ _ _ Hrun r Hin) as Hv.
      apply _validateRepoConf_ok in Hv as (d' & de & Hget' & _ & Hde).
      fold repos in Hget'. rewrite Hget in Hget'. simplify_eq.
      rewrite Hk // Hnone in Hde. done.
  - exfalso.
    pose proof (_fill_frame _ _ _ _ Hfill) as (_ & _ & _ & Hk & _).
    apply _fill_ok in Hfill as (_ & _ & Hall).
    destruct (Hall r Hr) as (d' & de & Hget' & _ & Hde & _).
    fold repos in Hget'. rewrite Hget in Hget'. simplify_eq.
    rewrite Hk // Hnone in Hde. done.
Qed.

Lemma C4_reference_must_resolve_witness :
  "test" ∈ Object_keys (get Examples.blorg "repositories")
  ∧ get (get Examples.blorg "repositories") "test" = JStr "blorg"
  ∧ ("blorg" ∉ Object_keys (get Examples.blorg "databases"))
  ∧ databases new_Connector !! "blorg" = None
  ∧ ∃ c' e, _fill new_Connector Examples.blorg = (c', Some e)
      ∧ is_ConfigurationError e
      ∧ repositories c' !! "test" = repositories new_Connector !! "test".
Proof.
  assert ("test" ∈ Object_keys (get Examples.blorg "repositories")) as H1.
  { vm_compute. left. }
  assert ("blorg" ∉ Object_keys (get Examples.blorg "databases")) as H3.
  { vm_compute. intros H. apply list_elem_of_singleton in H. discriminate. }
  split_and!; [exact H1|reflexivity|exact H3|reflexivity|].
  by apply (C4_reference_must_resolve new_Connector Examples.blorg "test" "blorg").
Defined.

(** C4 as stated fails: the second snapshot maps [orders] to [primary],
    which is no database of that snapshot; the connector has it from the
    first snapshot and the mapping is accepted. *)
Lemma C4_counterexample :
  let added := add Examples.first_fragment Examples.configured [Examples.secondary] in
  "orders" ∈ Object_keys (get Examples.secondary "repositories")
  ∧ get (get Examples.secondary "repositories") "orders" = JStr "primary"
  ∧ ("primary" ∉ Object_keys (get Examples.secondary "databases"))
  ∧ added.2 = Return ()
  ∧ repositories added.1 !! "orders"
    = Some {| repo_name := "orders"; repo_pool := 0; repo_databaseName := "primary" |}.
Proof.
  split_and!; [|reflexivity| |reflexivity|by vm_compute].
  - vm_compute. left.
  - vm_compute. intros H. apply list_elem_of_singleton in H. discriminate.
Qed.

(** ** C2: the pool of a repository after a successful application *)

Lemma head_omap_None {A B} (f : A → option B) (l : list A) :
  head (omap f l) = None ↔ ∀ x, x ∈ l → f x = None.
Proof.
  induction l as [|a l IH]; simpl.
  - split; [|done]. intros _ x Hx. by apply elem_of_nil in Hx.
  - destruct (f a) eqn:Hfa; simpl.
    + split; [done|]. intros H. rewrite (H a) in Hfa; [by left|done].
    + rewrite IH. split.
      * intros H x [->|Hx]%elem_of_cons; [done|by apply H].
      * intros H x Hx. apply H. by right.
Qed.

Lemma rule4_entry_None known key repoConf :
  rule4_entry known key repoConf = None ↔
  ∃ d, repoConf = JStr d ∧ 0 < String.length d ∧ known d = true.
Proof.
  unfold rule4_entry. split.
  - destruct (isNonEmptyString repoConf) eqn:Hs; simpl; [|done].
    destruct (known (as_string repoConf)) eqn:Hk; simpl; [|done].
    intros _. destruct repoConf; try done. simpl in *.
    apply bool_decide_eq_true in Hs. eauto.
  - intros (d & -> & Hlen & Hk). simpl.
    rewrite bool_decide_eq_true_2 //= Hk //.
Qed.

Lemma valid_snapshot_rules conf :
  valid_snapshot conf →
  let dbs := get conf "databases" in
  let repos := get conf "repositories" in
  rule1 conf = None ∧ rule3 conf = None ∧ rule2 dbs = None
  ∧ length (Object_keys repos) ≠ 0
  ∧ ∀ r, r ∈ Object_keys repos →
      ∃ d, get repos r = JStr d ∧ 0 < String.length d ∧ d ∈ Object_keys dbs.
Proof.
  intros H dbs repos. unfold valid_snapshot, rules_1_3_2_4, or_else in H.
  destruct (rule1 conf); [done|]. destruct (rule3 conf); [done|].
  destruct (rule2 (get conf "databases")) eqn:H2; [done|].
  unfold rule4 in H. case_bool_decide; [done|].
  split_and!; try done.
  intros r Hr.
  pose proof (proj1 (head_omap_None _ _) H r Hr) as Hentry.
  apply rule4_entry_None in Hentry as (d & Hget & Hlen & Hin).
  exists d. split_and!; try done. by apply bool_decide_eq_true in Hin.
Qed.

(** A valid snapshot is accepted by every connector. *)
Lemma valid_snapshot_accepted c conf :
  valid_snapshot conf → ∃ c', _fill c conf = (c', None).
Proof.
  intros Hvalid.
  pose proof (valid_snapshot_rules conf Hvalid) as (H1 & H3 & H2 & Hlen & Hall).
  pose proof (_fill_rules c conf) as Hrules.
  unfold rules_1_3_2_4 in Hrules. rewrite H1 H3 H2 /= in Hrules.
  unfold rule4 in Hrules. rewrite bool_decide_eq_false_2 // in Hrules.
  destruct (_fill c conf) as [c' r]. simpl in Hrules. exists c'. f_equal.
  rewrite Hrules. apply head_omap_None. intros r' Hr'.
  destruct (Hall r' Hr') as (d & Hget & Hlen' & Hin).
  apply rule4_entry_None. exists d. split_and!; try done.
  unfold in_snapshot_or_registry, in_snapshot.
  rewrite (bool_decide_eq_true_2 (d ∈ _)) // orb_true_r //.
Qed.

(** C2, as the code has it: after a valid snapshot has been applied,
    every repository [r] of the snapshot has an entry that holds the pool
    opened during this application for the database [d] it refers to,
    which is the pool of the entry of [d] and was opened with the
    configuration of [d]; [getPool] returns that pool when [r] is not the
    empty string. *)
Theorem C2_repository_resolves_to_opened_pool c conf :
  valid_snapshot conf →
  let dbs := get conf "databases" in
  let repos := get conf "repositories" in
  ∃ c', _fill c conf = (c', None)
    ∧ ∀ r, r ∈ Object_keys repos →
        ∃ d i,
          get repos r = JStr d
          ∧ Object_keys dbs !! i = Some d
          ∧ pools c' !! (length (pools c) + i) = Some (get dbs d)
          ∧ databases c' !! d = Some {| db_name := d; db_pool := length (pools c) + i |}
          ∧ repositories c' !! r
            = Some {| repo_name := r; repo_pool := length (pools c) + i;
                      repo_databaseName := d |}
          ∧ (r ≠ "" → getPool c' (JStr r) = Return (length (pools c) + i)).
Proof.
  intros Hvalid dbs repos.
  destruct (valid_snapshot_accepted c conf Hvalid) as [c' Hfill].
  exists c'. split; [done|]. intros r Hr.
  pose proof (valid_snapshot_rules conf Hvalid) as (_ & _ & _ & _ & Hall).
  destruct (Hall r Hr) as (d & Hget & _ & Hin).
  apply list_elem_of_lookup in Hin as [i Hi].
  apply _fill_ok in Hfill as (Hpools & Hdbs & Hrepos).
  destruct (Hdbs i d Hi) as [_ Hd].
  destruct (Hrepos r Hr) as (d' & de & Hget' & _ & Hde & Hentry).
  fold repos in Hget'. rewrite Hget in Hget'. simplify_eq.
  exists d', i. split_and!; try done.
  - rewrite Hpools lookup_app_r; [lia|].
    replace (length (pools c) + i - length (pools c)) with i by lia.
    by rewrite list_lookup_fmap Hi.
  - intros Hne. unfold getPool, _assertRepo. simpl.
    rewrite bool_decide_eq_true_2; [by destruct r; [|simpl; lia]|].
    rewrite /= bool_decide_eq_true_2 /=; by rewrite Hentry.
Qed.

Lemma C2_repository_resolves_to_opened_pool_witness :
  valid_snapshot Examples.conf
  ∧ ∃ c', _fill Examples.configured Examples.conf = (c', None)
      ∧ getPool c' (JStr "test") = Return 1.
Proof.
  assert (valid_snapshot Examples.conf) as Hvalid by reflexivity.
  split; [exact Hvalid|].
  destruct (C2_repository_resolves_to_opened_pool Examples.configured Examples.conf Hvalid)
    as (c' & Hfill & Hall).
  exists c'. split; [exact Hfill|].
  destruct (Hall "test") as (d & i & Hget & Hi & _ & _ & _ & Hpool).
  { vm_compute. left. }
  destruct i as [|i]; [|by destruct i].
  by apply Hpool.
Defined.

(** C2 as stated fails: a snapshot whose repository is named by the empty
    string is valid and is applied, and [getPool] refuses that name. *)
Lemma C2_counterexample :
  let added := add Examples.first_fragment new_Connector [Examples.unnamed] in
  valid_snapshot Examples.unnamed
  ∧ added.2 = Return ()
  ∧ "" ∈ Object_keys (get Examples.unnamed "repositories")
  ∧ repositories added.1 !! ""
    = Some {| repo_name := ""; repo_pool := 0; repo_databaseName := "primary" |}
  ∧ getPool added.1 (JStr "")
    = Throw (Err (TypeError "Argument repository must be a non-empty string")).
Proof.
  split_and!; [reflexivity|reflexivity| |by vm_compute|by vm_compute].
  vm_compute. left.
Qed.

(** ** C5: the Registry invariant *)

Lemma registry_invariant_ext c c' :
  databases c' = databases c → repositories c' = repositories c → pools c' = pools c →
  registry_invariant c → registry_invariant c'.
Proof. unfold registry_invariant. by intros -> -> ->. Qed.

Lemma open_database_invariant key dbConf c :
  registry_invariant c → registry_invariant (open_database key dbConf c).
Proof.
  intros [Hrepos Hdbs]. split; simpl.
  - intros r e He. destruct (Hrepos r e He) as (Hname & Hpool & Hsome).
    split_and!; [done|rewrite length_app /=; lia|].
    destruct (decide (key = repo_databaseName e)) as [->|Hne].
    + rewrite lookup_insert_eq. eauto.
    + by rewrite lookup_insert_ne.
  - intros d de. destruct (decide (key = d)) as [->|Hne].
    + rewrite lookup_insert_eq. intros [= <-]. simpl.
      split; [done|]. rewrite length_app /=. lia.
    + rewrite lookup_insert_ne //. intros Hd.
      destruct (Hdbs d de Hd) as [Hname Hpool].
      split; [done|]. rewrite length_app /=. lia.
Qed.

Lemma fillDatabases_loop_invariant dbs keys c c' r :
  fillDatabases_loop dbs keys c = (c', r) → registry_invariant c → registry_invariant c'.
Proof.
  revert c. induction keys as [|key rest IH]; intros c H Hinv; simpl in H.
  - by simplify_eq.
  - destruct (validateDatabaseConf key (get dbs key)); [by simplify_eq|].
    apply (IH _ H). by apply open_database_invariant.
Qed.

Lemma fillRepos_loop_invariant repos keys c c' r :
  fillRepos_loop repos keys c = (c', r) → registry_invariant c → registry_invariant c'.
Proof.
  revert c. induction keys as [|key rest IH]; intros c H Hinv; simpl in H.
  - by simplify_eq.
  - destruct (_validateRepoConf c key (get repos key)) eqn:Hv; [by simplify_eq|].
    apply _validateRepoConf_ok in Hv as (d & de & Hget & _ & Hde).
    unfold database_pool in H. rewrite Hget /= Hde /= in H.
    apply (IH _ H). destruct Hinv as [Hrepos Hdbs]. split; simpl; [|done].
    intros r' e. destruct (decide (key = r')) as [->|Hne].
    + rewrite lookup_insert_eq. intros [= <-]. simpl.
      destruct (Hdbs d de Hde) as [_ Hpool]. split_and!; [done|done|]. rewrite Hde. eauto.
    + rewrite lookup_insert_ne //. apply Hrepos.
Qed.

Lemma _fill_invariant c conf c' r :
  _fill c conf = (c', r) → registry_invariant c → registry_invariant c'.
Proof.
  unfold _fill. destruct (validateConf conf); [by intros; simplify_eq|].
  unfold _fillDatabasesMap, _fillReposMap.
  case_bool_decide; [by intros; simplify_eq|].
  destruct (fillDatabases_loop _ _ c) as [c1 r1] eqn:Hd.
  intros Hrun Hinv. apply fillDatabases_loop_invariant in Hd; [|done].
  destruct r1; [by simplify_eq|].
  case_bool_decide; [by simplify_eq|].
  by apply (fillRepos_loop_invariant _ _ _ _ _ Hrun).
Qed.

Section Frames.
Variable behaves : behaviour.

(** For the maps and the pools, the callback of [load] is one [_fill]
    or nothing. *)
Lemma load_done_fill c cbfn err conf c' p thrown :
  load_done behaves c cbfn err conf = (c', p, thrown) →
  ∃ c1, (c1 = c ∨ ∃ r, _fill c conf = (c1, r))
    ∧ databases c' = databases c1 ∧ repositories c' = repositories c1
    ∧ pools c' = pools c1.
Proof.
  unfold load_done. destruct (elv_value err).
  - intros Hdone. exists c. split; [by left|].
    assert (c' = (call_if_elv behaves cbfn [err] c).1) as ->.
    { rewrite -(then_settle_connector _ (Rejected err)). by rewrite Hdone. }
    by destruct (call_if_elv_registry behaves cbfn [err] c) as (? & ? & ? & _).
  - destruct (_fill c conf) as [c1 [e|]] eqn:Hfill; intros Hdone; exists c1.
    + split; [right; eauto|].
      assert (c' = (call_if_elv behaves cbfn [Err e] c1).1) as ->.
      { rewrite -(then_settle_connector _ (Rejected (Err e))). by rewrite Hdone. }
      by destruct (call_if_elv_registry behaves cbfn [Err e] c1) as (? & ? & ? & _).
    + split; [right; eauto|].
      destruct (emit_registry behaves c1 "done" (Data conf)) as (H4 & H5 & H6 & _).
      destruct (emit behaves c1 "done" (Data conf)) as [c2 [t|]]; simpl in *.
      { by simplify_eq. }
      assert (c' = (call_if_elv behaves cbfn [Data JNull; Self] c2).1) as ->.
      { rewrite -(then_settle_connector _ (Resolved Self)). by rewrite Hdone. }
      destruct (call_if_elv_registry behaves cbfn [Data JNull; Self] c2)
        as (H1 & H2 & H3 & _).
      split_and!; [exact (eq_trans H1 H4)|exact (eq_trans H2 H5)|exact (eq_trans H3 H6)].
Qed.

(** And so is all that [configurator.load] does; the connector [c0] the
    configuration is applied to has the maps and pools of [c]. *)
Lemma configurator_load_fill script cbfn c c' p :
  configurator_load behaves script cbfn c = (c', p) →
  ∃ c0 c1,
    databases c0 = databases c ∧ repositories c0 = repositories c ∧ pools c0 = pools c
    ∧ (c1 = c0 ∨ ∃ conf r, _fill c0 conf = (c1, r))
    ∧ databases c' = databases c1 ∧ repositories c' = repositories c1
    ∧ pools c' = pools c1.
Proof.
  revert c. induction script as [fragment next IH|during err conf|e|]; intros c; simpl.
  - destruct (emit_registry behaves c "config" (Data fragment)) as (Hd & Hr & Hp & _).
    destruct (emit behaves c "config" (Data fragment)) as [c1 thrown]. simpl in *.
    intros Hload.
    apply IH in Hload as (c0 & c2 & Hd0 & Hr0 & Hp0 & Hfill & Hd2 & Hr2 & Hp2).
    exists c0, c2. split_and!; try done; congruence.
  - destruct (load_done behaves c cbfn err (JObj conf)) as [[c1 p1] thrown] eqn:Hdone.
    apply load_done_fill in Hdone as (c2 & Hfill & Hd2 & Hr2 & Hp2).
    intros Hload. exists c, c2.
    assert (c' = c1) as -> by (by destruct thrown; simplify_eq).
    split_and!; try done. destruct Hfill as [->|[r Hfill]]; [by left|right; eauto].
  - intros [= <- _]. exists c, c. split_and!; try done. by left.
  - intros [= <- _]. exists c, c. split_and!; try done. by left.
Qed.

Lemma connect_registry c repository callback acquire :
  let c' := (connect behaves c repository callback acquire).1 in
  databases c' = databases c ∧ repositories c' = repositories c ∧ pools c' = pools c.
Proof.
  assert (∀ c0 p e, let c' := (caught behaves c0 p e).1 in
            databases c' = databases c0 ∧ repositories c' = repositories c0
            ∧ pools c' = pools c0) as Hcaught.
  { intros c0 p e. unfold caught.
    destruct (emit_registry behaves c0 "error" e) as (Hd & Hr & Hp & _).
    by destruct (emit behaves c0 "error" e) as [c1 [thrown|]]. }
  unfold connect.
  destruct (_assertRepo c repository); [done|].
  destruct (assertCallback callback); [done|].
  destruct acquire as [e|during err client release|]; [| |done].
  - specialize (Hcaught c Pending e). by destruct (caught behaves c Pending e).
  - assert (databases (connected behaves c callback err client release).1.1 = databases c
            ∧ repositories (connected behaves c callback err client release).1.1
              = repositories c
            ∧ pools (connected behaves c callback err client release).1.1 = pools c)
      as (Hd & Hr & Hp).
    { unfold connected. destruct (elv_value err); rewrite then_settle_connector;
        by destruct (call_if_elv_registry behaves callback [err] c) as (? & ? & ? & _),
           (call_if_elv_registry behaves callback [Data JNull; client; release] c)
             as (? & ? & ? & _). }
    destruct (connected behaves c callback err client release) as [[c1 p] [thrown|]];
      simpl in *; [|done].
    destruct during; [|done].
    specialize (Hcaught c1 p thrown). destruct (caught behaves c1 p thrown) as [c2 p2].
    simpl in *. destruct Hcaught as (Hd2 & Hr2 & Hp2). split_and!; congruence.
Qed.
End Frames.

Lemma on_registry c eventName listener :
  let c' := (on c eventName listener).1 in
  databases c' = databases c ∧ repositories c' = repositories c ∧ pools c' = pools c.
Proof. unfold on. by repeat case_match. Qed.

Lemma fillRepos_loop_dangling repos keys c c' r d :
  NoDup keys →
  fillRepos_loop repos keys c = (c', Some (dangling r d)) →
  Map_has (databases c') d = false ∧ repositories c' !! r = repositories c !! r.
Proof.
  intros Hnd Hrun.
  pose proof (fillRepos_loop_frame _ _ _ _ _ Hrun) as (-> & _).
  apply fillRepos_loop_fail in Hrun as (before & key & rest & -> & Hf & _ & Hrest); [|done].
  apply _validateRepoConf_fault in Hf as [Hf|[Hf Hhas]]; [done|].
  injection Hf as -> ->. split; [done|].
  apply Hrest. apply NoDup_app in Hnd as (_ & Hnotin & _).
  intros Hin. apply (Hnotin key Hin). by left.
Qed.

Lemma _fill_dangling c conf c' r d :
  _fill c conf = (c', Some (dangling r d)) →
  Map_has (databases c') d = false ∧ repositories c' !! r = repositories c !! r.
Proof.
  unfold _fill. destruct (validateConf conf) eqn:Hv.
  { intros; simplify_eq. exfalso. revert Hv. unfold validateConf.
    by repeat case_match. }
  unfold _fillDatabasesMap, _fillReposMap.
  case_bool_decide; [done|].
  destruct (fillDatabases_loop _ _ c) as [c1 [e1|]] eqn:Hd.
  - intros; simplify_eq. exfalso.
    apply fillDatabases_loop_fail in Hd as (? & key & ? & _ & Hf & _);
      [|apply Object_keys_NoDup].
    by apply validateDatabaseConf_fault in Hf as [Hf|Hf].
  - case_bool_decide; [done|]. intros Hr.
    apply fillDatabases_loop_frame in Hd as (<- & _).
    by apply (fillRepos_loop_dangling _ _ _ _ _ _ (Object_keys_NoDup _) Hr).
Qed.

Section Reachable.
Variable behaves : behaviour.
Variable Kibbutz_append : list jsval → list (string * jsval).
Variable Kibbutz_load : list jsval → jsval → kibbutz_load.

(** For the maps and the pools, an operation is one [_fill] or nothing;
    the connector [c0] it is applied to has the maps and pools of [c]. *)
Lemma run_fill c o :
  ∃ c0 c1,
    databases c0 = databases c ∧ repositories c0 = repositories c ∧ pools c0 = pools c
    ∧ (c1 = c0 ∨ ∃ conf r, _fill c0 conf = (c1, r))
    ∧ databases (run behaves Kibbutz_append Kibbutz_load c o) = databases c1
    ∧ repositories (run behaves Kibbutz_append Kibbutz_load c o) = repositories c1
    ∧ pools (run behaves Kibbutz_append Kibbutz_load c o) = pools c1.
Proof.
  assert (∀ c' : Connector,
    databases c' = databases c → repositories c' = repositories c → pools c' = pools c →
    ∃ c0 c1,
      databases c0 = databases c ∧ repositories c0 = repositories c ∧ pools c0 = pools c
      ∧ (c1 = c0 ∨ ∃ conf r, _fill c0 conf = (c1, r))
      ∧ databases c' = databases c1 ∧ repositories c' = repositories c1
      ∧ pools c' = pools c1) as Hnothing.
  { intros c' Hd Hr Hp. exists c, c. split_and!; try done. by left. }
  destruct o as [args|args|repository callback acquire|repository|name l]; simpl.
  - unfold add. case_bool_decide; [by apply Hnothing|].
    destruct (_fill c _) as [c1 r] eqn:Hfill. exists c, c1.
    split_and!; try done; [right; eauto|by destruct r..].
  - unfold load. destruct (nth 0 args JUndefined); try by apply Hnothing.
    case_bool_decide; [by apply Hnothing|].
    destruct (if _ && _ then _ else _) as [val cbfn].
    destruct (assertCallback cbfn); [by apply Hnothing|].
    destruct (Kibbutz_load _ _) as [e|script]; [by apply Hnothing|].
    destruct (configurator_load _ _ _ _) as [c2 p] eqn:Hload. simpl.
    by apply configurator_load_fill in Hload.
  - destruct (connect_registry behaves c repository callback acquire) as (Hd & Hr & Hp).
    by apply Hnothing.
  - by apply Hnothing.
  - destruct (on_registry c name l) as (Hd & Hr & Hp). by apply Hnothing.
Qed.

Lemma run_invariant c o :
  registry_invariant c → registry_invariant (run behaves Kibbutz_append Kibbutz_load c o).
Proof.
  intros Hinv.
  destruct (run_fill c o) as (c0 & c1 & Hd0 & Hr0 & Hp0 & Hfill & Hd1 & Hr1 & Hp1).
  apply (registry_invariant_ext c1); try done.
  assert (registry_invariant c0) as Hinv0 by (by apply (registry_invariant_ext c)).
  destruct Hfill as [->|(conf & r & Hfill)]; [done|].
  by apply (_fill_invariant _ _ _ _ Hfill).
Qed.

Lemma reachable_invariant c :
  reachable behaves Kibbutz_append Kibbutz_load c → registry_invariant c.
Proof.
  induction 1 as [|c o _ IH]; [|by apply run_invariant].
  split; intros k e; by rewrite lookup_empty.
Qed.

(** C5: every connector a program can reach satisfies the Registry
    invariant: a stored repository entry names a database that has an
    entry.  When an application fails on a repository [r] mapped to a
    name [d] that resolves to no database, [d] has no entry, the entry
    of [r] is the one it was before the call, so none is created, and
    the invariant still holds. *)
Theorem C5_no_dangling_reference_stored c :
  reachable behaves Kibbutz_append Kibbutz_load c →
  registry_invariant c
  ∧ ∀ conf c' r d,
      _fill c conf = (c', Some (dangling r d)) →
      Map_has (databases c') d = false
      ∧ repositories c' !! r = repositories c !! r
      ∧ registry_invariant c'.
Proof.
  intros Hreach. pose proof (reachable_invariant c Hreach) as Hinv.
  split; [done|]. intros conf c' r d Hfill.
  destruct (_fill_dangling _ _ _ _ _ Hfill) as [Hhas Hr].
  split_and!; try done. by apply (_fill_invariant _ _ _ _ Hfill).
Qed.
End Reachable.

Lemma C5_no_dangling_reference_stored_witness :
  let applied := _fill Examples.configured Examples.blorg in
  reachable Examples.quiet Examples.first_fragment Examples.no_load Examples.configured
  ∧ registry_invariant Examples.configured
  ∧ applied.2 = Some (dangling "test" (JStr "blorg"))
  ∧ Map_has (databases applied.1) (JStr "blorg") = false
  ∧ repositories applied.1 !! "test" = repositories Examples.configured !! "test".
Proof.
  intros applied.
  assert (reachable Examples.quiet Examples.first_fragment Examples.no_load Examples.configured) as Hreach.
  { apply (reachable_run _ _ _ new_Connector (Add [Examples.conf])), reachable_new. }
  destruct (C5_no_dangling_reference_stored _ _ _ _ Hreach) as [Hinv Hfail].
  destruct (Hfail Examples.blorg applied.1 "test" (JStr "blorg")) as (Hhas & Hrepo & _);
    [by vm_compute|].
  split_and!; try done.
Defined.

(** ** C8: applying a snapshot twice *)

Lemma rule4_known_mono (known1 known2 : string → bool) repos :
  (∀ d, known1 d = true → known2 d = true) →
  rule4 known1 repos = None → rule4 known2 repos = None.
Proof.
  intros Hmono. unfold rule4. case_bool_decide; [done|].
  rewrite !head_omap_None. intros Hall r Hr.
  apply rule4_entry_None. apply Hall, rule4_entry_None in Hr as (d & ? & ? & ?).
  exists d. eauto.
Qed.

(** A snapshot a connector accepts is accepted again after it has been
    applied. *)
Lemma _fill_again c conf c1 :
  _fill c conf = (c1, None) → ∃ c2, _fill c1 conf = (c2, None).
Proof.
  intros Hfill.
  pose proof (_fill_rules c conf) as Hrules. rewrite Hfill /= in Hrules.
  pose proof (_fill_rules c1 conf) as Hrules1.
  destruct (_fill c1 conf) as [c2 r]. exists c2. f_equal. simpl in Hrules1.
  rewrite Hrules1. symmetry in Hrules.
  unfold rules_1_3_2_4, or_else in *.
  destruct (rule1 conf); [done|]. destruct (rule3 conf); [done|].
  destruct (rule2 (get conf "databases")); [done|].
  apply (rule4_known_mono (in_snapshot_or_registry c conf)); [|done].
  intros d. unfold in_snapshot_or_registry.
  intros [Hd| ->]%orb_true_iff; [|by rewrite orb_true_r].
  apply bool_decide_eq_true in Hd.
  apply _fill_frame in Hfill as (_ & _ & _ & _ & _ & Hsome & _).
  rewrite (bool_decide_eq_true_2 (is_Some (databases c1 !! d))) //. by apply Hsome.
Qed.

Lemma getPool_returns c repository :
  (∃ pool, getPool c repository = Return pool)
  ↔ ∃ r, repository = JStr r ∧ 0 < String.length r ∧ is_Some (repositories c !! r).
Proof.
  unfold getPool, _assertRepo. split.
  - intros [pool H].
    destruct (isNonEmptyString repository) eqn:Hs; simpl in H; [|done].
    destruct repository; try done. simpl in *.
    case_bool_decide; [|done]. apply bool_decide_eq_true in Hs. eauto.
  - intros (r & -> & Hlen & [e He]). simpl.
    rewrite bool_decide_eq_true_2 //= bool_decide_eq_true_2 /= He; eauto.
Qed.

Section C8.
Variable Kibbutz_append : list jsval → list (string * jsval).

(** C8: when [add] has applied a snapshot, the same call succeeds
    again.  Afterwards both maps have entries for the same names, with
    the same [name] and [databaseName], and [getPool] succeeds for the
    same names; and every database of the snapshot has a pool opened by
    the second call with its configuration, which is not the pool it
    had after the first. *)
Theorem C8_add_twice c args c1 :
  args ≠ [] →
  add Kibbutz_append c args = (c1, Return ()) →
  let dbs := get (JObj (Kibbutz_append (flatten args))) "databases" in
  ∃ c2, add Kibbutz_append c1 args = (c2, Return ())
    ∧ (∀ r, repo_databaseName <$> repositories c2 !! r
            = repo_databaseName <$> repositories c1 !! r)
    ∧ (∀ r, repo_name <$> repositories c2 !! r = repo_name <$> repositories c1 !! r)
    ∧ (∀ d, db_name <$> databases c2 !! d = db_name <$> databases c1 !! d)
    ∧ (∀ repository, (∃ pool, getPool c2 repository = Return pool)
                     ↔ (∃ pool, getPool c1 repository = Return pool))
    ∧ (∀ d, d ∈ Object_keys dbs →
         ∃ p1 p2, db_pool <$> databases c1 !! d = Some p1
           ∧ db_pool <$> databases c2 !! d = Some p2
           ∧ (p1 < length (pools c1))%nat ∧ (length (pools c1) ≤ p2)%nat
           ∧ p2 ≠ p1
           ∧ pools c2 !! p2 = Some (get dbs d)).
Proof.
  intros Hargs Hadd dbs.
  apply add_returns in Hadd; [|done].
  destruct (_fill_again _ _ _ Hadd) as [c2 Hagain].
  exists c2.
  pose proof (_fill_frame _ _ _ _ Hagain) as (_ & _ & _ & Hkd & Hkr & _).
  pose proof (_fill_ok _ _ _ Hadd) as (Hp1 & Hd1 & Hr1).
  pose proof (_fill_ok _ _ _ Hagain) as (Hp2 & Hd2 & Hr2).
  assert (∀ r, repo_databaseName <$> repositories c2 !! r
               = repo_databaseName <$> repositories c1 !! r) as Hnames.
  { intros r.
    destruct (decide (r ∈ Object_keys (get (JObj (Kibbutz_append (flatten args)))
                                          "repositories"))) as [Hin|Hnotin].
    - destruct (Hr1 r Hin) as (d1 & de1 & Hget1 & _ & _ & ->).
      destruct (Hr2 r Hin) as (d2 & de2 & Hget2 & _ & _ & ->).
      rewrite Hget1 in Hget2. by simplify_eq.
    - by rewrite Hkr. }
  split_and!; try done.
  - rewrite add_fill // Hagain //.
  - intros r.
    destruct (decide (r ∈ Object_keys (get (JObj (Kibbutz_append (flatten args)))
                                          "repositories"))) as [Hin|Hnotin].
    + destruct (Hr1 r Hin) as (d1 & de1 & _ & _ & _ & ->).
      by destruct (Hr2 r Hin) as (d2 & de2 & _ & _ & _ & ->).
    + by rewrite Hkr.
  - intros d. destruct (decide (d ∈ Object_keys dbs)) as [Hin|Hnotin].
    + apply list_elem_of_lookup in Hin as [i Hi].
      destruct (Hd1 i d Hi) as [_ ->]. by destruct (Hd2 i d Hi) as [_ ->].
    + by rewrite Hkd.
  - intros repository. rewrite !getPool_returns.
    split; intros (r & -> & Hlen & Hsome); exists r; split_and!; try done.
    + apply (fmap_is_Some repo_databaseName). rewrite -Hnames.
      by apply (fmap_is_Some repo_databaseName).
    + apply (fmap_is_Some repo_databaseName). rewrite Hnames.
      by apply (fmap_is_Some repo_databaseName).
  - intros d Hin. apply list_elem_of_lookup in Hin as [i Hi].
    destruct (Hd1 i d Hi) as [_ He1]. destruct (Hd2 i d Hi) as [_ He2].
    pose proof (lookup_lt_Some _ _ _ Hi) as Hlt.
    assert (length (pools c1) = length (pools c) + length (Object_keys dbs)) as Hlen.
    { by rewrite Hp1 length_app length_map. }
    exists (length (pools c) + i), (length (pools c1) + i).
    split_and!; [by rewrite He1|by rewrite He2|lia|lia|lia|].
    rewrite Hp2 lookup_app_r; [lia|].
    replace (length (pools c1) + i - length (pools c1)) with i by lia.
    by rewrite list_lookup_fmap Hi.
Qed.
End C8.

Lemma C8_add_twice_witness :
  add Examples.first_fragment new_Connector [Examples.conf] = (Examples.configured, Return ())
  ∧ ∃ c2, add Examples.first_fragment Examples.configured [Examples.conf] = (c2, Return ())
      ∧ db_pool <$> databases Examples.configured !! "primary" = Some 0
      ∧ db_pool <$> databases c2 !! "primary" = Some 1.
Proof.
  assert (add Examples.first_fragment new_Connector [Examples.conf]
          = (Examples.configured, Return ())) as Hadd by reflexivity.
  split; [exact Hadd|].
  destruct (C8_add_twice Examples.first_fragment new_Connector [Examples.conf]
              Examples.configured) as (c2 & Hagain & _); [done|exact Hadd|].
  exists c2. split; [exact Hagain|]. split; [reflexivity|].
  assert (add Examples.first_fragment Examples.configured [Examples.conf]
          = ((add Examples.first_fragment Examples.configured [Examples.conf]).1, Return ()))
    as Hrun by reflexivity.
  rewrite Hrun in Hagain. injection Hagain as <-. reflexivity.
Defined.

(** ** C10: repositories created before a database is applied again *)

Lemma getPool_entry c c' r :
  repositories c' !! r = repositories c !! r → getPool c' (JStr r) = getPool c (JStr r).
Proof. unfold getPool, _assertRepo. simpl. by intros ->. Qed.

Section C10.
Variable behaves : behaviour.
Variable Kibbutz_append : list jsval → list (string * jsval).
Variable Kibbutz_load : list jsval → jsval → kibbutz_load.

(** C10: let a later snapshot apply the database [d] again and not the
    repository [r], which an earlier call mapped to [d].  The entry of
    [r] is left as it is, with the pool it captured, and [getPool]
    answers for [r] what it answered before; the entry of [d] holds
    another pool; and a repository the later snapshot maps to [d] holds
    that other pool: two repositories of the same database then hold
    different pools. *)
Theorem C10_earlier_repository_keeps_pool c conf c' r e :
  reachable behaves Kibbutz_append Kibbutz_load c →
  let dbs := get conf "databases" in
  let repos := get conf "repositories" in
  _fill c conf = (c', None) →
  repositories c !! r = Some e →
  r ∉ Object_keys repos →
  repo_databaseName e ∈ Object_keys dbs →
  repositories c' !! r = Some e
  ∧ getPool c' (JStr r) = getPool c (JStr r)
  ∧ ∃ de, databases c' !! repo_databaseName e = Some de
      ∧ db_pool de ≠ repo_pool e
      ∧ ∀ r2, r2 ∈ Object_keys repos →
          get repos r2 = JStr (repo_databaseName e) →
          ∃ e2, repositories c' !! r2 = Some e2
            ∧ repo_databaseName e2 = repo_databaseName e
            ∧ repo_pool e2 = db_pool de
            ∧ repo_pool e2 ≠ repo_pool e.
Proof.
  intros Hreach dbs repos Hfill He Hr Hd.
  destruct (reachable_invariant _ _ _ _ Hreach) as [Hrepos _].
  destruct (Hrepos r e He) as (_ & Hpool & _).
  pose proof (_fill_frame _ _ _ _ Hfill) as (_ & _ & _ & _ & Hkr & _).
  apply _fill_ok in Hfill as (_ & Hdbs & Hall).
  apply list_elem_of_lookup in Hd as [i Hi].
  destruct (Hdbs i _ Hi) as [_ Hde].
  assert (repositories c' !! r = Some e) as He' by (by rewrite Hkr).
  split_and!; [done|apply getPool_entry; by rewrite He'|].
  eexists. split; [exact Hde|]. simpl. split; [lia|].
  intros r2 Hr2 Hget.
  destruct (Hall r2 Hr2) as (d2 & de2 & Hget2 & _ & Hde2 & He2).
  fold repos in Hget2. rewrite Hget in Hget2. simplify_eq.
  eexists. split; [exact He2|]. simpl. split_and!; [done|done|lia].
Qed.
End C10.

Lemma C10_earlier_repository_keeps_pool_witness :
  let applied := _fill Examples.configured Examples.again in
  reachable Examples.quiet Examples.first_fragment Examples.no_load Examples.configured
  ∧ applied.2 = None
  ∧ getPool Examples.configured (JStr "test") = Return 0
  ∧ getPool applied.1 (JStr "test") = Return 0
  ∧ getPool applied.1 (JStr "orders") = Return 1
  ∧ repo_databaseName <$> repositories applied.1 !! "test" = Some "primary"
  ∧ repo_databaseName <$> repositories applied.1 !! "orders" = Some "primary".
Proof.
  intros applied.
  assert (reachable Examples.quiet Examples.first_fragment Examples.no_load Examples.configured) as Hreach.
  { apply (reachable_run _ _ _ new_Connector (Add [Examples.conf])), reachable_new. }
  destruct (C10_earlier_repository_keeps_pool _ _ _ Examples.configured Examples.again
              applied.1 "test"
              {| repo_name := "test"; repo_pool := 0; repo_databaseName := "primary" |}
              Hreach) as (Hentry & Hpool & _).
  - by vm_compute.
  - by vm_compute.
  - vm_compute. intros H. apply list_elem_of_singleton in H. discriminate.
  - vm_compute. left.
  - split_and!; [exact Hreach|reflexivity|reflexivity| |reflexivity| |reflexivity].
    + rewrite Hpool. reflexivity.
    + unfold applied. by rewrite Hentry.
Defined.

(** ** C6 and C7: [connect] *)

Lemma log_nil c : log [] c = c.
Proof. destruct c. unfold log. simpl. by rewrite app_nil_r. Qed.

Lemma log_log es1 es2 c : log es2 (log es1 c) = log (es1 ++ es2) c.
Proof. unfold log. simpl. by rewrite app_assoc. Qed.

Section Notify.
Variable behaves : behaviour.

(** When every listener returns, all are called. *)
Lemma notify_all_return eventName payload ls c :
  (∀ l h, l ∈ ls → behaves h (Notified eventName l payload) = None) →
  notify behaves eventName payload ls c
  = (log (map (λ l, Notified eventName l payload) ls) c, None).
Proof.
  revert c. induction ls as [|l rest IH]; intros c Hall; simpl.
  - by rewrite log_nil.
  - rewrite Hall; [by left|]. rewrite IH; [|by rewrite log_log].
    intros l' h Hin. apply Hall. by right.
Qed.

(** The first listener that throws is the last one called. *)
Lemma notify_throws eventName payload before l after thrown c :
  (∀ l' h, l' ∈ before → behaves h (Notified eventName l' payload) = None) →
  behaves (effects c ++ map (λ l', Notified eventName l' payload) before)%list
          (Notified eventName l payload) = Some thrown →
  notify behaves eventName payload (before ++ l :: after) c
  = (log (map (λ l', Notified eventName l' payload) (before ++ [l])) c, Some thrown).
Proof.
  revert c. induction before as [|l0 before IH]; intros c Hall Hthrows; simpl.
  - simpl in Hthrows. rewrite app_nil_r in Hthrows. by rewrite Hthrows.
  - rewrite Hall; [by left|]. rewrite IH.
    + intros l' h Hin. apply Hall. by right.
    + simpl. by rewrite -app_assoc.
    + by rewrite log_log.
Qed.

(** [emit] calls listeners only. *)
Lemma notify_calls_listeners eventName payload ls c f args :
  Called f args ∈ effects (notify behaves eventName payload ls c).1 →
  Called f args ∈ effects c.
Proof.
  revert c. induction ls as [|l rest IH]; intros c; simpl; [done|].
  assert (Called f args ∈ effects (log [Notified eventName l payload] c) →
          Called f args ∈ effects c) as Hlog.
  { simpl. intros [Hin|Hin]%elem_of_app; [done|].
    apply list_elem_of_singleton in Hin. discriminate. }
  destruct (behaves (effects c) (Notified eventName l payload)); simpl; [done|].
  intros Hin. by apply Hlog, IH.
Qed.

Lemma emit_calls_listeners c eventName payload f args :
  Called f args ∈ effects (emit behaves c eventName payload).1 →
  Called f args ∈ effects c.
Proof. unfold emit. case_match; [done|]. apply notify_calls_listeners. Qed.
End Notify.

Section Connect.
Variable behaves : behaviour.

(** C6, as the code has it: when the pool throws instead of calling
    back, the catch block emits the error on ['error'], inside the
    executor of the promise.
    - When nobody listens, [emit] throws and the promise is rejected,
      with the error when it is an [Error] and with the error Node
      wraps it in otherwise.
    - When somebody listens and every listener returns, every listener
      is notified of the error, in registration order, and the promise
      stays pending.
    - When a listener throws, the listeners after it are not notified
      and the promise is rejected with what it threw.
    In no case is the callback called, and the maps are as they were. *)
Theorem C6_driver_fault_is_notified c repository callback e :
  _assertRepo c repository = None →
  assertCallback callback = None →
  let notified := λ l, Notified "error" l e in
  let result := connect behaves c repository callback (AcquireThrows e) in
  (listeners c "error" = [] → result = (c, Return (Rejected (unhandled e))))
  ∧ (listeners c "error" ≠ [] →
     (∀ l h, l ∈ listeners c "error" → behaves h (notified l) = None) →
     result = (log (map notified (listeners c "error")) c, Return Pending))
  ∧ (∀ before l after thrown,
       listeners c "error" = (before ++ l :: after)%list →
       (∀ l' h, l' ∈ before → behaves h (notified l') = None) →
       behaves (effects c ++ map notified before)%list (notified l) = Some thrown →
       result = (log (map notified (before ++ [l])) c, Return (Rejected thrown)))
  ∧ (∀ f args, Called f args ∈ effects result.1 → Called f args ∈ effects c)
  ∧ databases result.1 = databases c ∧ repositories result.1 = repositories c.
Proof.
  intros Hrepo Hcb notified result. split_and!.
  - intros Hnone. unfold result, connect, caught, emit.
    by rewrite Hrepo Hcb Hnone.
  - intros Hsome Hreturn. unfold result, connect, caught, emit.
    rewrite Hrepo Hcb (bool_decide_eq_false_2 (listeners c "error" = [])) // andb_false_r.
    by rewrite notify_all_return.
  - intros before l after thrown Hls Hreturn Hthrows.
    unfold result, connect, caught, emit.
    rewrite Hrepo Hcb Hls (bool_decide_eq_false_2 (_ = [])); [by destruct before|].
    rewrite andb_false_r. by rewrite (notify_throws _ _ _ _ _ _ thrown).
  - intros f args. unfold result, connect, caught. rewrite Hrepo Hcb.
    pose proof (emit_calls_listeners behaves c "error" e f args) as Hcalls.
    by destruct (emit behaves c "error" e) as [c1 [thrown|]].
  - by destruct (connect_registry behaves c repository callback (AcquireThrows e))
      as (? & _).
  - by destruct (connect_registry behaves c repository callback (AcquireThrows e))
      as (_ & ? & _).
Qed.

(** C7, as the code has it: when the pool calls back without error, the
    callback, if there is one, is called with [null], the client and
    the release function, and after it has returned the promise is
    resolved with the client alone.  Without callback the promise is
    resolved at once.  When the callback throws, the promise is not
    resolved: it stays pending when the exception does not leave
    [pool.connect], and the exception is handled by the catch block
    when it does. *)
Theorem C7_acquired_client c repository callback during err client release :
  _assertRepo c repository = None →
  assertCallback callback = None →
  elv_value err = false →
  let result :=
    connect behaves c repository callback (AcquireCallsBack during err client release) in
  (elv callback = false → result = (c, Return (Resolved client)))
  ∧ (∀ f, callback = JFun f →
       let call := Called f [Data JNull; client; release] in
       (behaves (effects c) call = None →
        result = (log [call] c, Return (Resolved client)))
       ∧ (∀ thrown, behaves (effects c) call = Some thrown →
            (during = false → result = (log [call] c, Return Pending))
            ∧ (during = true →
               result = ((caught behaves (log [call] c) Pending thrown).1,
                         Return (caught behaves (log [call] c) Pending thrown).2))
            ∧ ∀ v, result.2 ≠ Return (Resolved v)))
  ∧ databases result.1 = databases c ∧ repositories result.1 = repositories c.
Proof.
  intros Hrepo Hcb Herr result. split_and!.
  - intros Helv. unfold result, connect, connected. rewrite Hrepo Hcb Herr.
    by destruct callback.
  - intros f -> call. unfold result, connect, connected. rewrite Hrepo Hcb Herr. simpl.
    fold call. split.
    + by intros ->.
    + intros thrown ->. simpl. split_and!.
      * by intros ->.
      * intros ->. by destruct (caught behaves (log [call] c) Pending thrown).
      * intros v. destruct during; [|done].
        unfold caught. by destruct (emit behaves (log [call] c) "error" thrown) as [c2 [t|]].
  - by destruct (connect_registry behaves c repository callback
                   (AcquireCallsBack during err client release)) as (? & _).
  - by destruct (connect_registry behaves c repository callback
                   (AcquireCallsBack during err client release)) as (_ & ? & _).
Qed.
End Connect.

Lemma C6_driver_fault_is_notified_witness :
  _assertRepo Examples.listening (JStr "test") = None
  ∧ assertCallback (JFun 3) = None
  ∧ connect Examples.quiet Examples.listening (JStr "test") (JFun 3)
      (AcquireThrows Examples.terrible)
    = (log [Notified "error" 7 Examples.terrible] Examples.listening, Return Pending).
Proof.
  split_and!; [reflexivity|reflexivity|].
  destruct (C6_driver_fault_is_notified Examples.quiet Examples.listening (JStr "test")
              (JFun 3) Examples.terrible) as (_ & Hlisten & _);
    [reflexivity|reflexivity|].
  by apply Hlisten.
Defined.

(** C6 as stated fails: without listener for ['error'], [emit] throws
    the error in the executor of the promise, and the promise is
    rejected with it. *)
Lemma C6_counterexample :
  _assertRepo Examples.configured (JStr "test") = None
  ∧ connect Examples.quiet Examples.configured (JStr "test") JUndefined
      (AcquireThrows Examples.terrible)
    = (Examples.configured, Return (Rejected Examples.terrible)).
Proof. split; reflexivity. Qed.

Lemma C7_acquired_client_witness :
  let call := Called 3 [Data JNull; Data (JObj []); Data (JFun 4)] in
  _assertRepo Examples.configured (JStr "test") = None
  ∧ assertCallback (JFun 3) = None
  ∧ elv_value (Data JNull) = false
  ∧ connect Examples.quiet Examples.configured (JStr "test") (JFun 3)
      (AcquireCallsBack false (Data JNull) (Data (JObj [])) (Data (JFun 4)))
    = (log [call] Examples.configured, Return (Resolved (Data (JObj [])))).
Proof.
  intros call. split_and!; [reflexivity|reflexivity|reflexivity|].
  destruct (C7_acquired_client Examples.quiet Examples.configured (JStr "test") (JFun 3)
              false (Data JNull) (Data (JObj [])) (Data (JFun 4)))
    as (_ & Hcalled & _); [reflexivity|reflexivity|reflexivity|].
  destruct (Hcalled 3 eq_refl) as [Hreturns _]. by apply Hreturns.
Defined.

(** C7 as stated fails: the callback [9] is called with [null], the
    client and the release function and throws; the promise is not
    resolved. *)
Lemma C7_counterexample :
  _assertRepo Examples.configured (JStr "test") = None
  ∧ assertCallback (JFun 9) = None
  ∧ connect Examples.function_9_throws Examples.configured (JStr "test") (JFun 9)
      (AcquireCallsBack false (Data JNull) (Data (JObj [])) (Data (JFun 4)))
    = (log [Called 9 [Data JNull; Data (JObj []); Data (JFun 4)]] Examples.configured,
       Return Pending).
Proof. split_and!; reflexivity. Qed.

(** * Further properties of [lib/index.js] *)

(** ** [on] *)

Lemma listeners_add_listener name l c ev :
  listeners (add_listener name l c) ev
  = (listeners c ev ++ if bool_decide (ev = name) then [l] else [])%list.
Proof.
  unfold listeners, add_listener. simpl.
  rewrite filter_app fmap_app. f_equal.
  rewrite filter_cons /=. case_decide; case_bool_decide; simpl in *; congruence.
Qed.

Lemma event_names (name : string) :
  name ∈ ["config"; "done"; "error"] ↔ name = "config" ∨ name = "done" ∨ name = "error".
Proof.
  split.
  - intros H. repeat (apply elem_of_cons in H as [H|H]; [by eauto|]).
    by apply elem_of_nil in H.
  - intros [-> | [-> | ->]]; repeat constructor.
Qed.

(** X1: [on] returns exactly when the event is [config], [done] or
    [error] and the listener is a function; the listener is then the
    last one of that event and the listeners of the other events are the
    same.  In every other case [on] throws and the connector is as it
    was. *)
Theorem X1_on_outcomes c eventName listener :
  match on c eventName listener with
  | (c', Return _) =>
      ∃ name l, eventName = JStr name ∧ listener = JFun l
        ∧ name ∈ ["config"; "done"; "error"]
        ∧ (∀ ev, listeners c' ev
                 = (listeners c ev ++ if bool_decide (ev = name) then [l] else [])%list)
        ∧ databases c' = databases c ∧ repositories c' = repositories c
        ∧ pools c' = pools c ∧ effects c' = effects c
  | (c', Throw e) =>
      c' = c
      ∧ ¬ (∃ name l, eventName = JStr name ∧ listener = JFun l
             ∧ name ∈ ["config"; "done"; "error"])
  end.
Proof.
  unfold on. destruct eventName as [| | | |name| | | |];
    try (split; [done|]; by intros (? & ? & ? & _)).
  case_bool_decide as Hlen.
  { split; [done|]. intros (name' & l & [= <-] & _ & Hin).
    destruct name; [|done]. by apply event_names in Hin as [|[|]]. }
  destruct listener as [| | | | | | |l|];
    try (split; [done|]; by intros (? & ? & _ & ? & _)).
  destruct (bool_decide (name ≠ "config") && bool_decide (name ≠ "done")
            && bool_decide (name ≠ "error")) eqn:Hname.
  - split; [done|]. intros (name' & l' & [= <-] & _ & Hin).
    apply andb_true_iff in Hname as [[H1 H2]%andb_true_iff H3].
    apply bool_decide_eq_true in H1, H2, H3.
    by apply event_names in Hin as [|[|]].
  - exists name, l. split_and!; try done.
    + apply andb_false_iff in Hname as [[H|H]%andb_false_iff|H];
        apply bool_decide_eq_false in H; apply dec_stable in H;
        apply event_names; eauto.
    + intros ev. apply listeners_add_listener.
Qed.

(** ** [_assertRepo], [getPool] and the checks of [connect] *)

Lemma _assertRepo_None c repository :
  _assertRepo c repository = None →
  ∃ r e, repository = JStr r ∧ r ≠ "" ∧ repositories c !! r = Some e.
Proof.
  unfold _assertRepo.
  destruct (isNonEmptyString repository) eqn:Hs; simpl; [|done].
  destruct repository as [| | | |r| | | |]; try done. simpl in *.
  apply bool_decide_eq_true in Hs.
  case_bool_decide as Hsome; [|done]. intros _. destruct Hsome as [e He].
  exists r, e. split_and!; try done. intros ->. simpl in Hs. lia.
Qed.

(** X2: the three outcomes of [getPool].  It returns the pool of the
    entry when the name is a non-empty string that has an entry; it
    throws a [MissingRepositoryError] carrying the name, with the
    message ending in the name, when the name is a non-empty string
    without entry; it throws the [TypeError] of the argument for
    everything else, the empty string included. *)
Theorem X2_getPool_outcomes c repository :
  match getPool c repository with
  | Return pool =>
      ∃ r e, repository = JStr r ∧ r ≠ "" ∧ repositories c !! r = Some e
        ∧ pool = repo_pool e
  | Throw (Err (MissingRepositoryError message data)) =>
      repository = JStr data ∧ data ≠ "" ∧ repositories c !! data = None
      ∧ message = msg.missingRepo +:+ data
  | Throw (Err (TypeError message)) =>
      message = msg.argRepoStr ∧ isNonEmptyString repository = false
  | Throw _ => False
  end.
Proof.
  unfold getPool. destruct (_assertRepo c repository) as [e|] eqn:Hassert.
  - unfold _assertRepo in Hassert.
    destruct (isNonEmptyString repository) eqn:Hs; simpl in Hassert; [|by simplify_eq].
    destruct repository as [| | | |r| | | |]; try done. simpl in *.
    apply bool_decide_eq_true in Hs.
    case_bool_decide as Hsome; [done|]. simpl in Hassert. injection Hassert as <-.
    unfold new_MissingRepositoryError. simpl.
    split_and!; try done.
    + intros ->. simpl in Hs. lia.
    + by apply eq_None_not_Some.
  - apply _assertRepo_None in Hassert as (r & e & -> & Hne & He).
    simpl. rewrite He. by exists r, e.
Qed.

Section ConnectMore.
Variable behaves : behaviour.

(** X3: when the repository does not pass the check of [getPool],
    [connect] throws the same error, before it has looked at the
    callback or the pool: the connector is as it was, nobody is called
    and no promise is made. *)
Theorem X3_connect_throws_as_getPool c repository callback acquire e :
  getPool c repository = Throw e →
  connect behaves c repository callback acquire = (c, Throw e).
Proof.
  unfold getPool, connect.
  destruct (_assertRepo c repository) as [e'|] eqn:Hassert; [by intros [= <-]|].
  apply _assertRepo_None in Hassert as (r & en & -> & _ & He).
  simpl. by rewrite He.
Qed.

(** X4: when the pool calls back with an error.  Without callback the
    promise is rejected with that error and nobody is called.  With a
    callback, the callback is called once, with the error alone, before
    the promise is rejected: when it returns, the promise is rejected
    with the error; when it throws, [rejectCallback] is not reached:
    the promise stays pending when the exception does not leave
    [pool.connect], and the exception is handled by the catch block
    when it does.  The maps and the pools are as they were. *)
Theorem X4_connect_acquire_error c repository callback during err client release :
  _assertRepo c repository = None →
  assertCallback callback = None →
  elv_value err = true →
  let result :=
    connect behaves c repository callback (AcquireCallsBack during err client release) in
  (elv callback = false → result = (c, Return (Rejected err)))
  ∧ (∀ f, callback = JFun f →
       let call := Called f [err] in
       (behaves (effects c) call = None →
        result = (log [call] c, Return (Rejected err)))
       ∧ (∀ thrown, behaves (effects c) call = Some thrown →
            (during = false → result = (log [call] c, Return Pending))
            ∧ (during = true →
               result = ((caught behaves (log [call] c) Pending thrown).1,
                         Return (caught behaves (log [call] c) Pending thrown).2))))
  ∧ databases result.1 = databases c ∧ repositories result.1 = repositories c
  ∧ pools result.1 = pools c.
Proof.
  intros Hrepo Hcb Herr result. split_and!.
  - intros Helv. unfold result, connect, connected. rewrite Hrepo Hcb Herr.
    by destruct callback.
  - intros f -> call. unfold result, connect, connected. rewrite Hrepo Hcb Herr. simpl.
    fold call. split.
    + by intros ->.
    + intros thrown ->. simpl. split.
      * by intros ->.
      * intros ->. by destruct (caught behaves (log [call] c) Pending thrown).
  - by destruct (connect_registry behaves c repository callback
                   (AcquireCallsBack during err client release)) as (? & _).
  - by destruct (connect_registry behaves c repository callback
                   (AcquireCallsBack during err client release)) as (_ & ? & _).
  - by destruct (connect_registry behaves c repository callback
                   (AcquireCallsBack during err client release)) as (_ & _ & ?).
Qed.

(** X5: [on] followed by [connect], when the pool throws.  The listener
    [on] has registered for ['error'] is the last of the ['error']
    listeners.  When every one of them returns, each has been notified
    of the error, in registration order, and the promise stays pending.
    When the earlier ones return and the new one throws, the promise is
    rejected with what it threw.  The callback is called in neither
    case. *)
Theorem X5_subscribed_driver_fault c l repository callback e :
  _assertRepo c repository = None →
  assertCallback callback = None →
  let notified := λ l', Notified "error" l' e in
  ∃ c1,
    on c (JStr "error") (JFun l) = (c1, Return ())
    ∧ listeners c1 "error" = (listeners c "error" ++ [l])%list
    ∧ ((∀ l' h, l' ∈ (listeners c "error" ++ [l])%list → behaves h (notified l') = None) →
       connect behaves c1 repository callback (AcquireThrows e)
       = (log (map notified (listeners c "error" ++ [l])) c1, Return Pending))
    ∧ (∀ thrown,
         (∀ l' h, l' ∈ listeners c "error" → behaves h (notified l') = None) →
         behaves (effects c ++ map notified (listeners c "error"))%list (notified l)
         = Some thrown →
         connect behaves c1 repository callback (AcquireThrows e)
         = (log (map notified (listeners c "error" ++ [l])) c1, Return (Rejected thrown))).
Proof.
  intros Hrepo Hcb notified.
  exists (add_listener "error" l c). split; [done|].
  assert (listeners (add_listener "error" l c) "error" = (listeners c "error" ++ [l])%list)
    as Hls by (by rewrite listeners_add_listener).
  split; [done|].
  assert (_assertRepo (add_listener "error" l c) repository = None) as Hrepo1 by done.
  split.
  - intros Hreturn. unfold connect, caught, emit.
    rewrite Hrepo1 Hcb Hls (bool_decide_eq_false_2 (_ = [])); [by destruct (listeners c "error")|].
    rewrite andb_false_r. by rewrite notify_all_return.
  - intros thrown Hreturn Hthrows. unfold connect, caught, emit.
    rewrite Hrepo1 Hcb Hls (bool_decide_eq_false_2 (_ = [])); [by destruct (listeners c "error")|].
    rewrite andb_false_r. by rewrite (notify_throws _ _ _ _ _ _ thrown).
Qed.
End ConnectMore.

Lemma X3_connect_throws_as_getPool_witness :
  getPool Examples.configured (JStr "blorg")
  = Throw (Err (new_MissingRepositoryError "blorg"))
  ∧ connect Examples.quiet Examples.configured (JStr "blorg") (JNum 42) AcquireNever
    = (Examples.configured, Throw (Err (new_MissingRepositoryError "blorg"))).
Proof.
  assert (getPool Examples.configured (JStr "blorg")
          = Throw (Err (new_MissingRepositoryError "blorg"))) as Hget by reflexivity.
  split; [exact Hget|]. by apply X3_connect_throws_as_getPool.
Defined.

Lemma X4_connect_acquire_error_witness :
  let leeroy := Err (Error "LEEEEROY JENKINS!") in
  _assertRepo Examples.configured (JStr "test") = None
  ∧ assertCallback (JFun 3) = None
  ∧ elv_value leeroy = true
  ∧ connect Examples.quiet Examples.configured (JStr "test") (JFun 3)
      (AcquireCallsBack false leeroy (Data JUndefined) (Data JUndefined))
    = (log [Called 3 [leeroy]] Examples.configured, Return (Rejected leeroy))
  ∧ connect Examples.function_9_throws Examples.configured (JStr "test") (JFun 9)
      (AcquireCallsBack false leeroy (Data JUndefined) (Data JUndefined))
    = (log [Called 9 [leeroy]] Examples.configured, Return Pending).
Proof.
  intros leeroy. split_and!; [reflexivity|reflexivity|reflexivity| |].
  - destruct (X4_connect_acquire_error Examples.quiet Examples.configured (JStr "test")
                (JFun 3) false leeroy (Data JUndefined) (Data JUndefined))
      as (_ & Hcalled & _); [reflexivity|reflexivity|reflexivity|].
    destruct (Hcalled 3 eq_refl) as [Hreturns _]. by apply Hreturns.
  - destruct (X4_connect_acquire_error Examples.function_9_throws Examples.configured
                (JStr "test") (JFun 9) false leeroy (Data JUndefined) (Data JUndefined))
      as (_ & Hcalled & _); [reflexivity|reflexivity|reflexivity|].
    destruct (Hcalled 9 eq_refl) as [_ Hthrows].
    destruct (Hthrows (Err (Error "thrown by 9")) eq_refl) as [Hpending _].
    by apply Hpending.
Defined.

Lemma X5_subscribed_driver_fault_witness :
  _assertRepo Examples.configured (JStr "test") = None
  ∧ assertCallback JUndefined = None
  ∧ ∃ c1,
      on Examples.configured (JStr "error") (JFun 7) = (c1, Return ())
      ∧ connect Examples.quiet c1 (JStr "test") JUndefined (AcquireThrows Examples.terrible)
        = (log [Notified "error" 7 Examples.terrible] c1, Return Pending).
Proof.
  split_and!; [reflexivity|reflexivity|].
  destruct (X5_subscribed_driver_fault Examples.quiet Examples.configured 7 (JStr "test")
              JUndefined Examples.terrible) as (c1 & Hon & _ & Hconnect & _);
    [reflexivity|reflexivity|].
  exists c1. split; [exact Hon|]. by apply Hconnect.
Defined.

(** ** [load] *)

Section Load.
Variable behaves : behaviour.
Variable Kibbutz_load : list jsval → jsval → kibbutz_load.

(** On an event other than ['error'], [emit] notifies every listener
    when all return, and stops at the first one that throws. *)
Lemma emit_all_return c eventName payload :
  eventName ≠ "error" →
  (∀ l h, l ∈ listeners c eventName → behaves h (Notified eventName l payload) = None) →
  emit behaves c eventName payload
  = (log (map (λ l, Notified eventName l payload) (listeners c eventName)) c, None).
Proof.
  intros Hne Hreturn. unfold emit. rewrite bool_decide_eq_false_2 //.
  by apply notify_all_return.
Qed.

Lemma emit_throws c eventName payload before l after thrown :
  eventName ≠ "error" →
  listeners c eventName = (before ++ l :: after)%list →
  (∀ l' h, l' ∈ before → behaves h (Notified eventName l' payload) = None) →
  behaves (effects c ++ map (λ l', Notified eventName l' payload) before)%list
          (Notified eventName l payload) = Some thrown →
  emit behaves c eventName payload
  = (log (map (λ l', Notified eventName l' payload) (before ++ [l])) c, Some thrown).
Proof.
  intros Hne Hls Hreturn Hthrows. unfold emit. rewrite bool_decide_eq_false_2 // Hls.
  by apply notify_throws.
Qed.

(** While the listeners of ['config'] return, [configurator.load]
    announces the fragments of [undisturbed] and ends as it tells. *)
Lemma configurator_load_undisturbed script cbfn c fragments last :
  undisturbed script = (fragments, last) →
  (∀ l h fragment, l ∈ listeners c "config" → fragment ∈ fragments →
     behaves h (Notified "config" l (Data fragment)) = None) →
  configurator_load behaves script cbfn c
  = configurator_load behaves last cbfn
      (log (flat_map (λ fragment,
              map (λ l, Notified "config" l (Data fragment)) (listeners c "config"))
              fragments) c).
Proof.
  revert c fragments.
  induction script as [fragment next IH|during err conf|e|]; intros c fragments; simpl;
    try (intros [= <- <-] _; by rewrite log_nil).
  destruct (undisturbed (next None)) as [fs last'] eqn:Hnext.
  intros [= <- <-] Hreturn.
  rewrite emit_all_return //.
  { intros l h Hin. apply Hreturn; [done|by left]. }
  rewrite (IH None _ fs) //.
  { intros l h fragment' Hl Hf. apply Hreturn; [done|by right]. }
  by rewrite log_log.
Qed.

(** X6: the ways [load] throws instead of returning a promise.  It
    throws the [TypeError] of the providers when the first argument is
    no array, and the one of their number when it is an empty array,
    whatever the other arguments are; it throws the [TypeError] of the
    callback when the third of three arguments is given and is no
    function.  Whenever it throws, the connector is exactly as it was:
    nothing is applied, nobody is notified or called.  An exception of
    [configurator.load] is not thrown by [load]: it arises in the
    executor of the promise, which is rejected with it. *)
Theorem X6_load_throws_untouched c args :
  let providers := nth 0 args JUndefined in
  (Array_isArray providers = false →
   load behaves Kibbutz_load c args = (c, Throw (Err (TypeError msg.argProvidersArray))))
  ∧ (providers = JArr [] →
     load behaves Kibbutz_load c args = (c, Throw (Err (TypeError msg.argProvidersLen))))
  ∧ (∀ ps value callback e,
       ps ≠ [] → assertCallback callback = Some e →
       load behaves Kibbutz_load c [JArr ps; value; callback] = (c, Throw (Err e)))
  ∧ (∀ c' e, load behaves Kibbutz_load c args = (c', Throw e) → c' = c)
  ∧ (∀ ps value callback e,
       ps ≠ [] → assertCallback callback = None →
       Kibbutz_load ps (if elv value then JObj [("value", value)] else JUndefined)
       = KibbutzLoads (LoadThrows e) →
       load behaves Kibbutz_load c [JArr ps; value; callback] = (c, Return (Rejected e))).
Proof.
  intros providers. split_and!.
  - unfold load. fold providers. by destruct providers.
  - unfold load. fold providers. by intros ->.
  - intros ps value callback e Hps Hcb. unfold load. simpl.
    rewrite bool_decide_eq_false_2; [by destruct ps|]. by rewrite Hcb.
  - intros c' e. unfold load. fold providers.
    destruct providers as [| | | | |ps| | |]; try (by intros [= <- _]).
    case_bool_decide as Hlen; [by intros [= <- _]|].
    destruct (if _ && _ then _ else _) as [val cbfn].
    destruct (assertCallback cbfn); [by intros [= <- _]|].
    destruct (Kibbutz_load _ _) as [e0|script]; [by intros [= <- _]|].
    by destruct (configurator_load _ _ _ _).
  - intros ps value callback e Hps Hcb Hload. unfold load. simpl.
    rewrite bool_decide_eq_false_2; [by destruct ps|]. by rewrite Hcb Hload.
Qed.

(** X7: the shape of the arguments of [load].  A call with two
    arguments takes the second one for the callback when it is a
    function, and for the base value otherwise. *)
Theorem X7_load_two_arguments c providers second :
  load behaves Kibbutz_load c [providers; second]
  = if bool_decide (typeof second = "function")
    then load behaves Kibbutz_load c [providers; JUndefined; second]
    else load behaves Kibbutz_load c [providers; second; JUndefined].
Proof.
  unfold load. simpl. destruct providers; try by case_bool_decide.
  case_bool_decide; [by case_bool_decide|].
  case_bool_decide as Hfun; [|done].
  by destruct second.
Qed.

(** X8: a [load] whose providers all answer and whose merged
    configuration is accepted, the listeners of ['config'] returning.
    Every ['config'] listener has been notified of every fragment, in
    the order of the fragments, and the configuration has been applied
    after that.  Then the ['done'] listeners are notified of the merged
    configuration, the callback is called with [null] and the
    connector, and the promise is resolved with the connector, in this
    order:
    - when the ['done'] listeners and the callback return, the promise
      is resolved with the connector;
    - when a ['done'] listener throws, the listeners after it are not
      notified, the callback is not called and the promise is not
      resolved;
    - when the callback throws, the promise is not resolved.
    A promise that is not resolved is rejected with the exception when
    the exception leaves [configurator.load], and stays pending
    otherwise.  The configuration stays applied in every case. *)
Theorem X8_load_resolves c ps value callback script fragments during err conf c2 :
  ps ≠ [] →
  assertCallback callback = None →
  Kibbutz_load ps (if elv value then JObj [("value", value)] else JUndefined)
  = KibbutzLoads script →
  undisturbed script = (fragments, CallsBack during err conf) →
  elv_value err = false →
  (∀ l h fragment, l ∈ listeners c "config" → fragment ∈ fragments →
     behaves h (Notified "config" l (Data fragment)) = None) →
  let configs :=
    flat_map (λ fragment,
      map (λ l, Notified "config" l (Data fragment)) (listeners c "config")) fragments in
  _fill (log configs c) (JObj conf) = (c2, None) →
  let notified := λ l, Notified "done" l (Data (JObj conf)) in
  let dones := map notified (listeners c "done") in
  let unresolved := λ thrown, if during then Rejected thrown else Pending in
  let result := load behaves Kibbutz_load c [JArr ps; value; callback] in
  ((∀ l h, l ∈ listeners c "done" → behaves h (notified l) = None) →
   (elv callback = false → result = (log dones c2, Return (Resolved Self)))
   ∧ (∀ f, callback = JFun f →
        let call := Called f [Data JNull; Self] in
        (behaves (effects c2 ++ dones)%list call = None →
         result = (log (dones ++ [call]) c2, Return (Resolved Self)))
        ∧ (∀ thrown, behaves (effects c2 ++ dones)%list call = Some thrown →
             result = (log (dones ++ [call]) c2, Return (unresolved thrown)))))
  ∧ (∀ before l after thrown,
       listeners c "done" = (before ++ l :: after)%list →
       (∀ l' h, l' ∈ before → behaves h (notified l') = None) →
       behaves (effects c2 ++ map notified before)%list (notified l) = Some thrown →
       result = (log (map notified (before ++ [l])) c2, Return (unresolved thrown)))
  ∧ effects c2 = (effects c ++ configs)%list.
Proof.
  intros Hps Hcb Hload Hscript Herr Hconfig configs Hfill notified dones unresolved result.
  assert (result
          = let '(c1, p) := configurator_load behaves (CallsBack during err conf) callback
                              (log configs c) in (c1, Return p)) as ->.
  { unfold result, load. simpl.
    rewrite bool_decide_eq_false_2; [by destruct ps|].
    rewrite Hcb Hload. by rewrite (configurator_load_undisturbed _ _ _ _ _ Hscript). }
  pose proof (_fill_frame _ _ _ _ Hfill) as (Hemitter & Heffects & _).
  assert (listeners c2 "done" = listeners c "done") as Hls.
  { unfold listeners. by rewrite Hemitter. }
  simpl. rewrite /load_done Herr Hfill. split_and!.
  - intros Hreturn. rewrite emit_all_return //.
    { rewrite Hls. exact Hreturn. }
    rewrite Hls. fold notified dones. split.
    + intros Helv. by destruct callback.
    + intros f ->. simpl. split.
      * by intros ->; rewrite log_log.
      * intros thrown ->. rewrite log_log. by destruct during.
  - intros before l after thrown Hbefore Hreturn Hthrows.
    rewrite (emit_throws c2 "done" _ before l after thrown);
      [done|by rewrite Hls|done|done|].
    by destruct during.
  - by rewrite Heffects.
Qed.

(** X9: a [load] one of whose providers fails, the listeners of
    ['config'] returning.  The configuration is not applied and no
    ['done'] notification is made.  Without callback the promise is
    rejected with the error of the provider.  With a callback, the
    callback is called with the error alone, before the promise is
    rejected: when it returns, the promise is rejected with the error;
    when it throws, the promise is rejected with the exception when the
    exception leaves [configurator.load], and stays pending
    otherwise. *)
Theorem X9_load_provider_fails c ps value callback script fragments during err conf :
  ps ≠ [] →
  assertCallback callback = None →
  Kibbutz_load ps (if elv value then JObj [("value", value)] else JUndefined)
  = KibbutzLoads script →
  undisturbed script = (fragments, CallsBack during err conf) →
  elv_value err = true →
  (∀ l h fragment, l ∈ listeners c "config" → fragment ∈ fragments →
     behaves h (Notified "config" l (Data fragment)) = None) →
  let configs :=
    flat_map (λ fragment,
      map (λ l, Notified "config" l (Data fragment)) (listeners c "config")) fragments in
  let result := load behaves Kibbutz_load c [JArr ps; value; callback] in
  (elv callback = false → result = (log configs c, Return (Rejected err)))
  ∧ (∀ f, callback = JFun f →
       let call := Called f [err] in
       (behaves (effects c ++ configs)%list call = None →
        result = (log (configs ++ [call]) c, Return (Rejected err)))
       ∧ (∀ thrown, behaves (effects c ++ configs)%list call = Some thrown →
            result = (log (configs ++ [call]) c,
                      Return (if during then Rejected thrown else Pending))))
  ∧ databases result.1 = databases c ∧ repositories result.1 = repositories c
  ∧ pools result.1 = pools c.
Proof.
  intros Hps Hcb Hload Hscript Herr Hconfig configs result.
  assert (result
          = let '(c1, p) := configurator_load behaves (CallsBack during err conf) callback
                              (log configs c) in (c1, Return p)) as ->.
  { unfold result, load. simpl.
    rewrite bool_decide_eq_false_2; [by destruct ps|].
    rewrite Hcb Hload. by rewrite (configurator_load_undisturbed _ _ _ _ _ Hscript). }
  simpl. rewrite /load_done Herr.
  assert (elv callback = false ∨ ∃ f, callback = JFun f) as Hshape.
  { destruct callback; simpl in Hcb; try done; eauto. }
  split_and!.
  - intros Helv. by destruct callback.
  - intros f ->. simpl. split.
    + by intros ->; rewrite log_log.
    + intros thrown ->. rewrite log_log. by destruct during.
  - destruct Hshape as [Helv|[f ->]]; [by destruct callback|]. simpl.
    by destruct (behaves _ _), during.
  - destruct Hshape as [Helv|[f ->]]; [by destruct callback|]. simpl.
    by destruct (behaves _ _), during.
  - destruct Hshape as [Helv|[f ->]]; [by destruct callback|]. simpl.
    by destruct (behaves _ _), during.
Qed.
End Load.

Lemma X8_load_resolves_witness :
  let c := (on new_Connector (JStr "done") (JFun 5)).1 in
  let c2 := (_fill c Examples.conf).1 in
  load Examples.quiet Examples.no_load c [JArr [Examples.conf]; JUndefined; JFun 3]
  = (log [Notified "done" 5 (Data Examples.conf); Called 3 [Data JNull; Self]] c2,
     Return (Resolved Self)).
Proof.
  intros c c2.
  destruct (X8_load_resolves Examples.quiet Examples.no_load c [Examples.conf] JUndefined
              (JFun 3) (Examples.announces_all [Examples.conf]
                          (CallsBack false (Data JNull)
                             (Examples.first_fragment [Examples.conf])))
              [Examples.conf] false (Data JNull)
              (Examples.first_fragment [Examples.conf]) c2)
    as (Hresolved & _);
    [done|reflexivity|reflexivity|reflexivity|reflexivity|done|by vm_compute|].
  destruct Hresolved as [_ Hcalled]; [done|].
  destruct (Hcalled 3 eq_refl) as [Hreturns _]. by apply Hreturns.
Defined.

Lemma X9_load_provider_fails_witness :
  let failing := λ (ps : list jsval) (options : jsval),
    KibbutzLoads (CallsBack false (Err (Error "no configuration")) []) in
  load Examples.quiet failing Examples.configured [JArr [JObj []]; JUndefined; JFun 3]
  = (log [Called 3 [Err (Error "no configuration")]] Examples.configured,
     Return (Rejected (Err (Error "no configuration")))).
Proof.
  intros failing.
  destruct (X9_load_provider_fails Examples.quiet failing Examples.configured [JObj []]
              JUndefined (JFun 3) (CallsBack false (Err (Error "no configuration")) [])
              [] false (Err (Error "no configuration")) [])
    as (_ & Hcalled & _);
    [done|reflexivity|reflexivity|reflexivity|reflexivity|done|].
  destruct (Hcalled 3 eq_refl) as [Hreturns _]. by apply Hreturns.
Defined.

(** ** [add] *)

Lemma flatten_from (acc args : list jsval) :
  foldl (λ vals val,
           match val with JArr items => vals ++ items | _ => vals ++ [val] end)%list
        acc args
  = (acc ++ flatten args)%list.
Proof.
  unfold flatten. revert acc. induction args as [|val rest IH]; intros acc; simpl.
  - by rewrite app_nil_r.
  - rewrite IH (IH (match val with JArr items => items | _ => [val] end)).
    rewrite app_assoc. by destruct val.
Qed.

Lemma flatten_cons val rest :
  flatten (val :: rest)
  = (match val with JArr items => items | _ => [val] end ++ flatten rest)%list.
Proof.
  unfold flatten at 1. simpl. rewrite flatten_from. by destruct val.
Qed.

Lemma flatten_fragments (vals : list jsval) :
  Forall (λ v, Array_isArray v = false) vals → flatten vals = vals.
Proof.
  induction 1 as [|val rest Hval _ IH]; [done|].
  rewrite flatten_cons IH. by destruct val.
Qed.

Section Add.
Variable Kibbutz_append : list jsval → list (string * jsval).

(** X10: [add] spreads the arrays among its arguments, one level deep:
    when the fragments so obtained hold no array and there is one at
    least, giving them as arguments, or as one array, has the same
    outcome. *)
Theorem X10_add_spreads_arrays c args :
  flatten args ≠ [] →
  Forall (λ v, Array_isArray v = false) (flatten args) →
  add Kibbutz_append c args = add Kibbutz_append c (flatten args)
  ∧ add Kibbutz_append c args = add Kibbutz_append c [JArr (flatten args)].
Proof.
  intros Hne Hflat.
  assert (args ≠ []) as Hargs by (by intros ->).
  rewrite !add_fill //.
  by rewrite (flatten_fragments (flatten args)).
Qed.

(** X11: [add] is silent: whether it returns or throws, it notifies no
    listener, calls nobody and leaves the listeners as they are; the
    pools it opens come after those that were open, which stay. *)
Theorem X11_add_is_silent c args :
  effects (add Kibbutz_append c args).1 = effects c
  ∧ _emitter (add Kibbutz_append c args).1 = _emitter c
  ∧ ∃ opened, pools (add Kibbutz_append c args).1 = (pools c ++ opened)%list.
Proof.
  unfold add. case_bool_decide.
  { split_and!; try done. exists []. by rewrite app_nil_r. }
  destruct (_fill c _) as [c1 r] eqn:Hfill.
  apply _fill_frame in Hfill as (He & Hf & Hp & _).
  by destruct r.
Qed.
End Add.

Lemma X10_add_spreads_arrays_witness :
  let more := JObj [("repositories", JObj [("orders", JStr "primary")])] in
  flatten [Examples.conf; JArr [more]] = [Examples.conf; more]
  ∧ add Examples.first_fragment new_Connector [Examples.conf; JArr [more]]
    = add Examples.first_fragment new_Connector [Examples.conf; more]
  ∧ add Examples.first_fragment new_Connector [Examples.conf; JArr [more]]
    = add Examples.first_fragment new_Connector [JArr [Examples.conf; more]].
Proof.
  intros more. split; [reflexivity|].
  apply (X10_add_spreads_arrays Examples.first_fragment new_Connector
           [Examples.conf; JArr [more]]); [done|].
  repeat constructor.
Defined.

(** ** The validation helpers, case by case *)

Lemma validateDatabaseConf_None key v :
  validateDatabaseConf key v = None
  ↔ ∃ props host, v = JObj props ∧ assoc "host" props = JStr host ∧ host ≠ "".
Proof.
  unfold validateDatabaseConf. split.
  - destruct v as [| | | | | | | |props]; try done. simpl.
    destruct (assoc "host" props) as [| | | |host| | | |] eqn:Hhost; try done. simpl.
    case_bool_decide as Hlen; [|done]. intros _.
    exists props, host. split_and!; try done. intros ->. simpl in Hlen. lia.
  - intros (props & host & -> & Hhost & Hne). simpl. rewrite Hhost /=.
    rewrite bool_decide_eq_true_2 //. destruct host; [done|simpl; lia].
Qed.

(** X12: [validateDatabaseConf] accepts exactly the plain objects whose
    [host] is a non-empty string; [null], arrays, dates, functions and
    primitive values are refused like an object without host.  The
    fault names the key and carries the value refused. *)
Theorem X12_validateDatabaseConf_accepts key v :
  (validateDatabaseConf key v = None
   ↔ ∃ props host, v = JObj props ∧ get v "host" = JStr host ∧ host ≠ "")
  ∧ (∀ e, validateDatabaseConf key v = Some e →
       ∃ message, e = ConfigurationError message (key_value key v)
         ∧ (message = "Loaded configuration databases sub keys must be POJOs"
            ↔ ∀ props, v ≠ JObj props)).
Proof.
  split.
  - rewrite validateDatabaseConf_None. split.
    + intros (props & host & -> & Hhost & Hne). by exists props, host.
    + intros (props & host & -> & Hhost & Hne). by exists props, host.
  - intros e. unfold validateDatabaseConf, new_ConfigurationError.
    destruct v as [| | | | | | | |props]; simpl;
      try (intros [= <-]; eexists; split; [done|]; by split).
    destruct (isNonEmptyString (assoc "host" props)); simpl; [done|].
    intros [= <-]. eexists. split; [done|]. split; [done|].
    intros Hall. by destruct (Hall props).
Qed.

(** X13: [validateConf] accepts exactly the configurations whose
    [databases] and [repositories] both hold a plain object; a key that
    is missing, [null], an array or a date is refused, and the fault
    carries the whole configuration. *)
Theorem X13_validateConf_accepts conf :
  (validateConf conf = None
   ↔ ∃ dbs repos, get conf "databases" = JObj dbs ∧ get conf "repositories" = JObj repos)
  ∧ (∀ e, validateConf conf = Some e → ∃ message, e = ConfigurationError message conf).
Proof.
  split; [split|].
  - intros [[dbs Hd] [repos Hr]]%validateConf_plain. by exists dbs, repos.
  - intros (dbs & repos & Hd & Hr). unfold validateConf. by rewrite Hd Hr.
  - intros e. unfold validateConf, new_ConfigurationError.
    repeat case_match; intros; simplify_eq; eauto.
Qed.

(** ** Where [_fillDatabasesMap] and [_fillReposMap] stop *)

(** X14: when [_fillDatabasesMap] fails on an entry, the entry is the
    first invalid one in key order and the fault is the one of that
    entry.  A pool has been opened, in key order, for each of the
    entries before it and for no other, and these entries are written;
    the entry of every other key, the failing one included, and the
    repositories are as they were. *)
Theorem X14_first_invalid_database c dbs c' e :
  Object_keys dbs ≠ [] →
  _fillDatabasesMap c dbs = (c', Some e) →
  ∃ before key rest,
    Object_keys dbs = (before ++ key :: rest)%list
    ∧ (∀ k, k ∈ before → validateDatabaseConf k (get dbs k) = None)
    ∧ validateDatabaseConf key (get dbs key) = Some e
    ∧ pools c' = (pools c ++ map (get dbs) before)%list
    ∧ (∀ i k, before !! i = Some k →
         databases c' !! k = Some {| db_name := k; db_pool := length (pools c) + i |})
    ∧ (∀ k, k ∉ before → databases c' !! k = databases c !! k)
    ∧ repositories c' = repositories c.
Proof.
  intros Hkeys. unfold _fillDatabasesMap.
  rewrite bool_decide_eq_false_2; [by destruct (Object_keys dbs)|].
  intros Hrun.
  apply fillDatabases_loop_fail in Hrun
    as (before & key & rest & Hsplit & Hfail & Hbefore & Hrest); [|apply Object_keys_NoDup].
  exists before, key, rest.
  pose proof (Object_keys_NoDup dbs) as Hnd. rewrite Hsplit in Hnd.
  apply NoDup_app in Hnd as (Hnd & _ & _).
  pose proof (fillDatabases_loop_frame _ _ _ _ _ Hbefore) as (Hrepos & _).
  pose proof (fillDatabases_loop_valid _ _ _ _ Hbefore) as Hvalid.
  apply fillDatabases_loop_ok in Hbefore as [Hpools Hall]; [|done].
  split_and!; try done. intros i k Hi. by destruct (Hall i k Hi).
Qed.

Lemma X14_first_invalid_database_witness :
  let dbs := JObj [("primary", Examples.primary); ("replica", JObj [("host", JNum 42)]);
                   ("archive", Examples.primary)] in
  let applied := _fillDatabasesMap new_Connector dbs in
  Object_keys dbs ≠ []
  ∧ applied.2 = Some (new_ConfigurationError msg.dbConfHostStr
                        (key_value "replica" (JObj [("host", JNum 42)])))
  ∧ ∃ before key rest,
      Object_keys dbs = (before ++ key :: rest)%list
      ∧ pools applied.1 = map (get dbs) before
      ∧ repositories applied.1 = ∅.
Proof.
  intros dbs applied.
  assert (Object_keys dbs ≠ []) as Hkeys by done.
  assert (applied = (applied.1, Some (new_ConfigurationError msg.dbConfHostStr
                        (key_value "replica" (JObj [("host", JNum 42)])))))
    as Happlied by (by vm_compute).
  destruct (X14_first_invalid_database new_Connector dbs _ _ Hkeys Happlied)
    as (before & key & rest & Hsplit & _ & _ & Hpools & _ & _ & Hrepos).
  split_and!; [exact Hkeys|by rewrite Happlied|].
  exists before, key, rest. split_and!; [exact Hsplit|exact Hpools|exact Hrepos].
Defined.

(** X15: [_fillReposMap] opens no pool and leaves the databases as they
    are.  When it fails on an entry, the entry is the first invalid one
    in key order; the entries before it are written, each with the pool
    of the database it names, and the entry of every other key, the
    failing one included, is as it was. *)
Theorem X15_first_invalid_repository c repos c' e :
  Object_keys repos ≠ [] →
  _fillReposMap c repos = (c', Some e) →
  ∃ before key rest,
    Object_keys repos = (before ++ key :: rest)%list
    ∧ _validateRepoConf c key (get repos key) = Some e
    ∧ (∀ k, k ∈ before →
         ∃ d de, get repos k = JStr d ∧ databases c !! d = Some de
           ∧ repositories c' !! k
             = Some {| repo_name := k; repo_pool := db_pool de; repo_databaseName := d |})
    ∧ (∀ k, k ∉ before → repositories c' !! k = repositories c !! k)
    ∧ databases c' = databases c ∧ pools c' = pools c.
Proof.
  intros Hkeys. unfold _fillReposMap.
  rewrite bool_decide_eq_false_2; [by destruct (Object_keys repos)|].
  intros Hrun.
  pose proof (fillRepos_loop_frame _ _ _ _ _ Hrun) as (Hdbs & Hpools & _).
  apply fillRepos_loop_fail in Hrun
    as (before & key & rest & Hsplit & Hfail & Hbefore & Hrest); [|apply Object_keys_NoDup].
  exists before, key, rest.
  pose proof (Object_keys_NoDup repos) as Hnd. rewrite Hsplit in Hnd.
  apply NoDup_app in Hnd as (Hnd & _ & _).
  split_and!; try done. intros k Hk.
  destruct (fillRepos_loop_ok _ _ _ _ Hnd Hbefore k Hk) as (d & de & Hget & _ & Hde & He).
  by exists d, de.
Qed.

Lemma X15_first_invalid_repository_witness :
  let repos := JObj [("users", JStr "primary"); ("orders", JNum 42);
                     ("carts", JStr "primary")] in
  let applied := _fillReposMap Examples.configured repos in
  Object_keys repos ≠ []
  ∧ applied.2 = Some (new_ConfigurationError msg.repoConfStr (JStr "orders"))
  ∧ pools applied.1 = pools Examples.configured
  ∧ databases applied.1 = databases Examples.configured.
Proof.
  intros repos applied.
  assert (Object_keys repos ≠ []) as Hkeys by done.
  assert (applied = (applied.1, Some (new_ConfigurationError msg.repoConfStr (JStr "orders"))))
    as Happlied by (by vm_compute).
  destruct (X15_first_invalid_repository Examples.configured repos _ _ Hkeys Happlied)
    as (before & key & rest & _ & _ & _ & _ & Hdbs & Hpools).
  split_and!; [exact Hkeys|by rewrite Happlied|exact Hpools|exact Hdbs].
Defined.

(** ** What every operation keeps *)

Lemma fillDatabases_loop_opens dbs keys c c' r :
  fillDatabases_loop dbs keys c = (c', r) →
  ∃ opened, pools c' = (pools c ++ opened)%list ∧ Forall host_configured opened.
Proof.
  revert c. induction keys as [|key rest IH]; intros c H; simpl in H.
  - simplify_eq. exists []. by rewrite app_nil_r.
  - destruct (validateDatabaseConf key (get dbs key)) eqn:Hv.
    + simplify_eq. exists []. by rewrite app_nil_r.
    + apply IH in H as (opened & Hp & Hvalid). simpl in Hp.
      exists (get dbs key :: opened). split; [by rewrite Hp -app_assoc|].
      constructor; [|done]. by apply (validateDatabaseConf_None key).
Qed.

Lemma _fill_opens c conf c' r :
  _fill c conf = (c', r) →
  ∃ opened, pools c' = (pools c ++ opened)%list ∧ Forall host_configured opened.
Proof.
  unfold _fill. destruct (validateConf conf).
  { intros; simplify_eq. exists []. by rewrite app_nil_r. }
  unfold _fillDatabasesMap, _fillReposMap. case_bool_decide.
  { intros; simplify_eq. exists []. by rewrite app_nil_r. }
  destruct (fillDatabases_loop _ _ c) as [c1 r1] eqn:Hd.
  apply fillDatabases_loop_opens in Hd as (opened & Hp & Hvalid).
  destruct r1; [intros; simplify_eq; eauto|].
  case_bool_decide; [intros; simplify_eq; eauto|].
  intros Hr. apply fillRepos_loop_frame in Hr as (_ & -> & _). eauto.
Qed.

Lemma open_database_distinct key dbConf c :
  registry_invariant c → pools_distinct c → pools_distinct (open_database key dbConf c).
Proof.
  intros [_ Hbound] Hdistinct d1 d2 de1 de2. simpl.
  destruct (decide (key = d1)) as [<-|Hne1], (decide (key = d2)) as [<-|Hne2];
    rewrite ?lookup_insert_eq ?lookup_insert_ne //.
  - intros [= <-] Hd2 Hpool. simpl in Hpool.
    destruct (Hbound d2 de2 Hd2) as [_ Hlt]. lia.
  - intros Hd1 [= <-] Hpool. simpl in Hpool.
    destruct (Hbound d1 de1 Hd1) as [_ Hlt]. lia.
  - apply Hdistinct.
Qed.

Lemma fillDatabases_loop_distinct dbs keys c c' r :
  fillDatabases_loop dbs keys c = (c', r) →
  registry_invariant c → pools_distinct c → pools_distinct c'.
Proof.
  revert c. induction keys as [|key rest IH]; intros c H Hinv Hdistinct; simpl in H.
  - by simplify_eq.
  - destruct (validateDatabaseConf key (get dbs key)); [by simplify_eq|].
    apply (IH _ H); [by apply open_database_invariant|by apply open_database_distinct].
Qed.

Lemma pools_distinct_ext c c' :
  databases c' = databases c → pools_distinct c → pools_distinct c'.
Proof. unfold pools_distinct. by intros ->. Qed.

Lemma _fill_distinct c conf c' r :
  _fill c conf = (c', r) → registry_invariant c → pools_distinct c → pools_distinct c'.
Proof.
  unfold _fill. destruct (validateConf conf); [by intros; simplify_eq|].
  unfold _fillDatabasesMap, _fillReposMap.
  case_bool_decide; [by intros; simplify_eq|].
  destruct (fillDatabases_loop _ _ c) as [c1 r1] eqn:Hd.
  intros Hrun Hinv Hdistinct.
  apply fillDatabases_loop_distinct in Hd; [|done|done].
  destruct r1; [by simplify_eq|].
  case_bool_decide; [by simplify_eq|].
  apply fillRepos_loop_frame in Hrun as (Hdbs & _).
  by apply (pools_distinct_ext c1).
Qed.

Lemma getPool_Return c repository pool :
  getPool c repository = Return pool →
  ∃ r e, repository = JStr r ∧ r ≠ "" ∧ repositories c !! r = Some e ∧ pool = repo_pool e.
Proof.
  unfold getPool. destruct (_assertRepo c repository) eqn:Hassert; [done|].
  apply _assertRepo_None in Hassert as (r & e & -> & Hne & He).
  simpl. rewrite He. intros [= <-]. by exists r, e.
Qed.

Section Keeps.
Variable behaves : behaviour.
Variable Kibbutz_append : list jsval → list (string * jsval).
Variable Kibbutz_load : list jsval → jsval → kibbutz_load.

Lemma run_grows c o :
  (∀ k, is_Some (databases c !! k) →
        is_Some (databases (run behaves Kibbutz_append Kibbutz_load c o) !! k))
  ∧ (∀ k, is_Some (repositories c !! k) →
          is_Some (repositories (run behaves Kibbutz_append Kibbutz_load c o) !! k))
  ∧ ∃ opened, pools (run behaves Kibbutz_append Kibbutz_load c o) = (pools c ++ opened)%list
      ∧ Forall host_configured opened.
Proof.
  destruct (run_fill behaves Kibbutz_append Kibbutz_load c o) as (c0 & c1 & Hd0 & Hr0 & Hp0 & Hfill & -> & -> & ->).
  destruct Hfill as [->|(conf & r & Hfill)].
  - rewrite Hd0 Hr0 Hp0. split_and!; try done. exists []. by rewrite app_nil_r.
  - pose proof (_fill_frame _ _ _ _ Hfill) as (_ & _ & _ & _ & _ & Hsd & Hsr).
    apply _fill_opens in Hfill as (opened & Hp & Hvalid).
    rewrite -Hd0 -Hr0 -Hp0. split_and!; try done. by exists opened.
Qed.

Lemma runs_grow c ops :
  (∀ k, is_Some (databases c !! k) →
        is_Some (databases (foldl (run behaves Kibbutz_append Kibbutz_load) c ops) !! k))
  ∧ (∀ k, is_Some (repositories c !! k) →
          is_Some (repositories (foldl (run behaves Kibbutz_append Kibbutz_load) c ops) !! k))
  ∧ ∃ opened, pools (foldl (run behaves Kibbutz_append Kibbutz_load) c ops) = (pools c ++ opened)%list
      ∧ Forall host_configured opened.
Proof.
  revert c. induction ops as [|o ops IH]; intros c; simpl.
  - split_and!; try done. exists []. by rewrite app_nil_r.
  - destruct (run_grows c o) as (Hd & Hr & opened & Hp & Hvalid).
    destruct (IH (run behaves Kibbutz_append Kibbutz_load c o))
      as (Hd' & Hr' & opened' & Hp' & Hvalid').
    split_and!; [by eauto|by eauto|].
    exists (opened ++ opened')%list. split; [by rewrite Hp' Hp -app_assoc|].
    by apply Forall_app.
Qed.

Lemma reachable_pools c :
  reachable behaves Kibbutz_append Kibbutz_load c → Forall host_configured (pools c).
Proof.
  induction 1 as [|c o _ IH]; [by constructor|].
  destruct (run_grows c o) as (_ & _ & opened & -> & Hvalid). by apply Forall_app.
Qed.

Lemma reachable_distinct c :
  reachable behaves Kibbutz_append Kibbutz_load c → pools_distinct c.
Proof.
  induction 1 as [|c o Hreach IH].
  { intros d1 d2 de1 de2. by rewrite lookup_empty. }
  pose proof (reachable_invariant _ _ _ _ Hreach) as Hinv.
  destruct (run_fill behaves Kibbutz_append Kibbutz_load c o) as (c0 & c1 & Hd0 & Hr0 & Hp0 & Hfill & Hd1 & _).
  apply (pools_distinct_ext c1); [done|].
  assert (pools_distinct c0) as Hdistinct0 by (by apply (pools_distinct_ext c)).
  destruct Hfill as [->|(conf & r & Hfill)]; [done|].
  apply (_fill_distinct _ _ _ _ Hfill); [|done].
  by apply (registry_invariant_ext c).
Qed.

(** X16: no operation removes an entry.  A repository for which
    [getPool] returns a pool has one after any further operations,
    successful or not, and a database that has an entry keeps one. *)
Theorem X16_lookups_persist c ops :
  (∀ repository pool,
     getPool c repository = Return pool →
     ∃ pool', getPool (foldl (run behaves Kibbutz_append Kibbutz_load) c ops) repository
              = Return pool')
  ∧ (∀ d, is_Some (databases c !! d) →
          is_Some (databases (foldl (run behaves Kibbutz_append Kibbutz_load) c ops) !! d)).
Proof.
  destruct (runs_grow c ops) as (Hd & Hr & _). split; [|done].
  intros repository pool Hget. apply getPool_returns.
  assert (∃ pool0, getPool c repository = Return pool0) as Hsome by eauto.
  apply getPool_returns in Hsome as (r & -> & Hlen & Hsome).
  exists r. split_and!; try done. by apply Hr.
Qed.

(** X17: no operation closes or replaces a pool: a pool that has been
    opened stays, with the configuration it was opened with, whatever
    is done next. *)
Theorem X17_pools_persist c ops pool dbConf :
  pools c !! pool = Some dbConf →
  pools (foldl (run behaves Kibbutz_append Kibbutz_load) c ops) !! pool = Some dbConf.
Proof.
  intros Hpool. destruct (runs_grow c ops) as (_ & _ & opened & -> & _).
  by apply lookup_app_l_Some.
Qed.

(** X18: every pool [getPool] hands out has been opened, with a plain
    object whose [host] is a non-empty string. *)
Theorem X18_pool_has_host c repository pool :
  reachable behaves Kibbutz_append Kibbutz_load c →
  getPool c repository = Return pool →
  ∃ dbConf, pools c !! pool = Some dbConf ∧ host_configured dbConf.
Proof.
  intros Hreach Hget.
  apply getPool_Return in Hget as (r & e & _ & _ & He & ->).
  destruct (reachable_invariant _ _ _ _ Hreach) as [Hrepos _].
  destruct (Hrepos r e He) as (_ & Hlt & _).
  apply lookup_lt_is_Some in Hlt as [dbConf Hpool].
  exists dbConf. split; [done|].
  pose proof (reachable_pools c Hreach) as Hvalid.
  by apply (Forall_lookup_1 _ _ _ _ Hvalid Hpool).
Qed.

(** X19: two databases never have the same pool: each entry of
    [databases] holds a pool of its own. *)
Theorem X19_one_pool_per_database c d1 d2 de1 de2 :
  reachable behaves Kibbutz_append Kibbutz_load c →
  databases c !! d1 = Some de1 →
  databases c !! d2 = Some de2 →
  d1 ≠ d2 →
  db_pool de1 ≠ db_pool de2.
Proof.
  intros Hreach H1 H2 Hne Hpool.
  apply Hne. by apply (reachable_distinct c Hreach d1 d2 de1 de2).
Qed.

(** X20: after a snapshot has been applied, two repositories of the
    snapshot hold the same pool exactly when they are mapped to the same
    database. *)
Theorem X20_same_database_same_pool c conf c' r1 r2 :
  reachable behaves Kibbutz_append Kibbutz_load c →
  _fill c conf = (c', None) →
  r1 ∈ Object_keys (get conf "repositories") →
  r2 ∈ Object_keys (get conf "repositories") →
  ∃ e1 e2,
    repositories c' !! r1 = Some e1 ∧ repositories c' !! r2 = Some e2
    ∧ (repo_pool e1 = repo_pool e2 ↔ repo_databaseName e1 = repo_databaseName e2).
Proof.
  intros Hreach Hfill Hr1 Hr2.
  assert (pools_distinct c') as Hdistinct.
  { apply (_fill_distinct _ _ _ _ Hfill);
      [by apply (reachable_invariant behaves Kibbutz_append Kibbutz_load)
      |by apply reachable_distinct]. }
  apply _fill_ok in Hfill as (_ & _ & Hall).
  destruct (Hall r1 Hr1) as (d1 & de1 & _ & _ & Hde1 & He1).
  destruct (Hall r2 Hr2) as (d2 & de2 & _ & _ & Hde2 & He2).
  eexists _, _. split_and!; [exact He1|exact He2|]. simpl. split.
  - by apply (Hdistinct d1 d2 de1 de2).
  - intros <-. rewrite Hde1 in Hde2. by simplify_eq.
Qed.
End Keeps.

Lemma X16_lookups_persist_witness :
  let ops := [Add [Examples.blorg]; On (JStr "error") (JFun 7); Add [Examples.again]] in
  getPool Examples.configured (JStr "test") = Return 0
  ∧ ∃ pool',
      getPool (foldl (run Examples.quiet Examples.first_fragment Examples.no_load) Examples.configured ops)
        (JStr "test") = Return pool'.
Proof.
  intros ops. split; [reflexivity|].
  destruct (X16_lookups_persist Examples.quiet Examples.first_fragment Examples.no_load
              Examples.configured ops) as [Hrepos _].
  by apply (Hrepos (JStr "test") 0).
Defined.

Lemma X17_pools_persist_witness :
  let ops := [Add [Examples.again]; Add [Examples.blorg]] in
  pools Examples.configured !! 0 = Some Examples.primary
  ∧ pools (foldl (run Examples.quiet Examples.first_fragment Examples.no_load) Examples.configured ops) !! 0
    = Some Examples.primary.
Proof.
  intros ops. split; [reflexivity|].
  by apply (X17_pools_persist Examples.quiet Examples.first_fragment Examples.no_load).
Defined.

Lemma X18_pool_has_host_witness :
  reachable Examples.quiet Examples.first_fragment Examples.no_load Examples.configured
  ∧ getPool Examples.configured (JStr "test") = Return 0
  ∧ ∃ dbConf, pools Examples.configured !! 0 = Some dbConf ∧ host_configured dbConf.
Proof.
  assert (reachable Examples.quiet Examples.first_fragment Examples.no_load Examples.configured) as Hreach.
  { apply (reachable_run _ _ _ new_Connector (Add [Examples.conf])), reachable_new. }
  split_and!; [exact Hreach|reflexivity|].
  by apply (X18_pool_has_host Examples.quiet Examples.first_fragment Examples.no_load
              Examples.configured (JStr "test")).
Defined.

Lemma X19_one_pool_per_database_witness :
  let c := run Examples.quiet Examples.first_fragment Examples.no_load Examples.configured
             (Add [Examples.secondary]) in
  reachable Examples.quiet Examples.first_fragment Examples.no_load c
  ∧ databases c !! "primary" = Some {| db_name := "primary"; db_pool := 0 |}
  ∧ databases c !! "secondary" = Some {| db_name := "secondary"; db_pool := 1 |}
  ∧ 0 ≠ 1.
Proof.
  intros c.
  assert (reachable Examples.quiet Examples.first_fragment Examples.no_load c) as Hreach.
  { apply reachable_run.
    apply (reachable_run _ _ _ new_Connector (Add [Examples.conf])), reachable_new. }
  assert (databases c !! "primary" = Some {| db_name := "primary"; db_pool := 0 |}) as H1
    by (by vm_compute).
  assert (databases c !! "secondary" = Some {| db_name := "secondary"; db_pool := 1 |})
    as H2 by (by vm_compute).
  split_and!; [exact Hreach|exact H1|exact H2|].
  by apply (X19_one_pool_per_database Examples.quiet Examples.first_fragment Examples.no_load c
              "primary" "secondary" _ _ Hreach H1 H2).
Defined.

Lemma X20_same_database_same_pool_witness :
  let conf := JObj [("databases", JObj [("primary", Examples.primary)]);
                    ("repositories",
                     JObj [("users", JStr "primary"); ("orders", JStr "primary")])] in
  let c' := (_fill new_Connector conf).1 in
  _fill new_Connector conf = (c', None)
  ∧ ∃ e1 e2,
      repositories c' !! "users" = Some e1 ∧ repositories c' !! "orders" = Some e2
      ∧ (repo_pool e1 = repo_pool e2 ↔ repo_databaseName e1 = repo_databaseName e2).
Proof.
  intros conf c'.
  assert (_fill new_Connector conf = (c', None)) as Hfill by (by vm_compute).
  split; [exact Hfill|].
  apply (X20_same_database_same_pool Examples.quiet Examples.first_fragment Examples.no_load
           new_Connector conf c' "users" "orders" (reachable_new _ _ _) Hfill).
  - vm_compute. left.
  - vm_compute. right. left.
Defined.

(** ** The faults *)

Lemma connect_checked behaves c repository callback acquire :
  _assertRepo c repository = None →
  assertCallback callback = None →
  ∃ c' p, connect behaves c repository callback acquire = (c', Return p).
Proof.
  intros Hrepo Hcb. unfold connect. rewrite Hrepo Hcb.
  destruct acquire as [e|during err client release|]; [| |by eauto].
  - destruct (caught behaves c Pending e); eauto.
  - destruct (connected behaves c callback err client release) as [[c1 p] [thrown|]];
      [|by eauto].
    destruct during; [|by eauto]. destruct (caught behaves c1 p thrown); eauto.
Qed.

(** X21: [connect] throws for two reasons only, both found before the
    pool is asked: the repository is refused as [getPool] refuses it, or
    the repository is mapped and the callback is neither absent nor a
    function.  The connector is then as it was. *)
Theorem X21_connect_throws_usage behaves c repository callback acquire c' e :
  connect behaves c repository callback acquire = (c', Throw e) →
  c' = c
  ∧ (getPool c repository = Throw e
     ∨ (∃ pool, getPool c repository = Return pool)
       ∧ e = Err (TypeError msg.argCallback)
       ∧ elv callback = true ∧ typeof callback ≠ "function").
Proof.
  destruct (_assertRepo c repository) as [e0|] eqn:Hassert.
  { unfold connect, getPool. rewrite Hassert. intros [= <- <-]. split; [done|by left]. }
  destruct (assertCallback callback) as [e0|] eqn:Hcb.
  - unfold connect, getPool. rewrite Hassert Hcb. intros [= <- <-]. split; [done|]. right.
    apply _assertRepo_None in Hassert as (r & en & -> & _ & Hen). simpl. rewrite Hen.
    unfold assertCallback in Hcb.
    destruct (elv callback); simpl in Hcb; [|done].
    case_bool_decide as Hfun; simpl in Hcb; [done|]. injection Hcb as <-.
    split_and!; eauto.
  - destruct (connect_checked behaves c repository callback acquire Hassert Hcb)
      as (c1 & p & ->). done.
Qed.

Lemma X21_connect_throws_usage_witness :
  connect Examples.quiet Examples.configured (JStr "test") (JNum 42) AcquireNever
  = (Examples.configured, Throw (Err (TypeError msg.argCallback)))
  ∧ ∃ pool, getPool Examples.configured (JStr "test") = Return pool.
Proof.
  assert (connect Examples.quiet Examples.configured (JStr "test") (JNum 42) AcquireNever
          = (Examples.configured, Throw (Err (TypeError msg.argCallback)))) as Hconnect
    by reflexivity.
  split; [exact Hconnect|].
  destruct (X21_connect_throws_usage _ _ _ _ _ _ _ Hconnect) as [_ [Hget|[Hget _]]];
    [discriminate Hget|exact Hget].
Defined.

(** X22: the fault of a rejected configuration is a
    [ConfigurationError] whose data tells what is refused: the whole
    configuration for a top-level key, nothing for an empty mapping, the
    key and the value for a database entry and for a repository mapped
    to a missing database, the key alone for a repository that is no
    non-empty string. *)
Theorem X22_fault_data c conf c' e :
  _fill c conf = (c', Some e) →
  let dbs := get conf "databases" in
  let repos := get conf "repositories" in
  ∃ message data,
    e = ConfigurationError message data
    ∧ ((validateConf conf = Some e ∧ data = conf)
       ∨ (validateConf conf = None
          ∧ (Object_keys dbs = [] ∨ Object_keys repos = []) ∧ data = JUndefined)
       ∨ (∃ k, k ∈ Object_keys dbs ∧ validateDatabaseConf k (get dbs k) = Some e
            ∧ data = key_value k (get dbs k))
       ∨ (∃ k, k ∈ Object_keys repos ∧ _validateRepoConf c' k (get repos k) = Some e
            ∧ (data = JStr k ∧ isNonEmptyString (get repos k) = false
               ∨ data = key_value k (get repos k)
                 ∧ Map_has (databases c') (get repos k) = false))).
Proof.
  intros Hfill dbs repos. revert Hfill. unfold _fill.
  destruct (validateConf conf) as [e0|] eqn:Hv.
  { intros [= <- <-].
    assert (∃ message, e0 = ConfigurationError message conf) as [message ->].
    { revert Hv. unfold validateConf, new_ConfigurationError.
      repeat case_match; intros; simplify_eq; eauto. }
    exists message, conf. split; [done|]. by left. }
  unfold _fillDatabasesMap, _fillReposMap. fold dbs repos.
  case_bool_decide as Hempty.
  { intros [= <- <-]. eexists _, _. split; [done|]. right. left.
    split_and!; try done. left. by destruct (Object_keys dbs). }
  destruct (fillDatabases_loop _ _ c) as [c1 [e1|]] eqn:Hd.
  - intros [= <- <-].
    apply fillDatabases_loop_fail in Hd as (before & key & rest & Hkeys & Hf & _);
      [|apply Object_keys_NoDup].
    assert (key ∈ Object_keys dbs) as Hin.
    { rewrite Hkeys. apply elem_of_app. right. left. }
    pose proof (validateDatabaseConf_fault _ _ _ Hf) as [-> | ->];
      eexists _, _; (split; [done|]); right; right; left; by exists key.
  - case_bool_decide as Hempty2.
    { intros [= <- <-]. eexists _, _. split; [done|]. right. left.
      split_and!; try done. right. by destruct (Object_keys repos). }
    intros Hr.
    pose proof (fillRepos_loop_frame _ _ _ _ _ Hr) as (Hdbs & _).
    apply fillRepos_loop_fail in Hr as (before & key & rest & Hkeys & Hf & _);
      [|apply Object_keys_NoDup].
    assert (key ∈ Object_keys repos) as Hin.
    { rewrite Hkeys. apply elem_of_app. right. left. }
    assert (_validateRepoConf c' key (get repos key) = Some e) as Hf'.
    { rewrite -Hf. by apply _validateRepoConf_databases. }
    pose proof Hf as Hcases. unfold _validateRepoConf in Hcases.
    destruct (isNonEmptyString (get repos key)) eqn:Hs; simpl in Hcases.
    + destruct (Map_has (databases c1) (get repos key)) eqn:Hhas; simpl in Hcases; [done|].
      injection Hcases as <-. eexists _, _. split; [done|]. do 3 right.
      exists key. split_and!; try done. right. by rewrite Hdbs.
    + injection Hcases as <-. eexists _, _. split; [done|]. do 3 right.
      exists key. split_and!; try done. by left.
Qed.

Lemma X22_fault_data_witness :
  let c' := (_fill new_Connector Examples.blorg).1 in
  _fill new_Connector Examples.blorg = (c', Some (dangling "test" (JStr "blorg")))
  ∧ ∃ message data, dangling "test" (JStr "blorg") = ConfigurationError message data
      ∧ data = key_value "test" (JStr "blorg").
Proof.
  intros c'.
  assert (_fill new_Connector Examples.blorg = (c', Some (dangling "test" (JStr "blorg"))))
    as Hfill by (by vm_compute).
  split; [exact Hfill|].
  destruct (X22_fault_data _ _ _ _ Hfill) as (message & data & He & _).
  exists message, data. split; [exact He|]. by injection He as _ <-.
Defined.
